(** * eytzinger_array: a sorted container in Eytzinger (breadth-first) layout

    Shallow embedding of [eytzinger_array.hpp] and verification of its
    layout builder ([breadth_first_copy], [make_eytzinger]) and of its
    search routine ([find]).

    Conventions of the embedding
    - [std::array<T, N>] is a [list T]; the template parameter [N] is the
      length of the list ([size]).
    - [size_t] and [unsigned long] are 64-bit (LP64): values are integers
      in [Z] and every arithmetic result is reduced with [wrap].
    - [operator[]] is unchecked in C++: an access outside the array, a
      shift by 64 or more, and a recursion or loop that exceeds its budget
      all give [None] (no defined result).  The theorems show where [None]
      does not occur.
    - An iterator is its offset from [cbegin()]; [cbegin() + k - 1] with
      [k = 0] is the offset [-1], one before the first element. *)

From stdpp Require Import base numbers option list sorting.

Local Open Scope Z_scope.

(** ** 64-bit unsigned arithmetic *)

Definition wrap (x : Z) : Z := x `mod` 2 ^ 64.

(** [~k] on an [unsigned long]. *)
Definition lnot64 (k : Z) : Z := Z.lxor k (Z.ones 64).

(** Scan [n] bits of [x] upwards from bit [i]; one plus the index of the
    first set bit, or [0] when none is set. *)
Fixpoint ffs_from (n : nat) (i : Z) (x : Z) : Z :=
  match n with
  | O => 0
  | S n' => if Z.testbit x i then i + 1 else ffs_from n' (i + 1) x
  end.

(** [__builtin_ffsl]: one plus the index of the least significant set bit
    of a 64-bit word, [0] for the zero word. *)
Definition ffsl (x : Z) : Z := ffs_from 64 0 x.

(** [k >> s] on an [unsigned long]; a shift count of 64 or more is
    undefined. *)
Definition shr64 (k s : Z) : option Z :=
  if decide (s < 64) then Some (Z.shiftr k s) else None.

(** Largest number of elements an array object can have: no object is
    larger than [PTRDIFF_MAX] bytes. *)
Definition max_size : Z := 2 ^ 63 - 1.

(** Levels of the deepest tree: the tree index at least doubles at each
    level, and a tree of [max_size] nodes has no index of 64 bits. *)
Definition tree_depth : nat := 63%nat.

(** Recursion and loop budget: one step per level and one to leave the
    tree. *)
Definition depth_budget : nat := S tree_depth.

Section Container.
Context {T : Type}.

(** [Compare::operator()] *)
Variable comp : T -> T -> bool.

(** [size()] *)
Definition size (a : list T) : Z := Z.of_nat (length a).

(** [operator[] (i)] for reading. *)
Definition at_ (a : list T) (i : Z) : option T := a !! Z.to_nat i.

(** [out[i] = x] *)
Definition store (out : list T) (i : Z) (x : T) : option (list T) :=
  if decide (i < size out) then Some (<[Z.to_nat i := x]> out) else None.

(** Iterators as offsets from [cbegin()]. *)
Definition begin_ (a : list T) : Z := 0.
Definition end_ (a : list T) : Z := size a.

(** *** Search *)

(** The loop of [find], started at tree index [k].  Returns the exit value
    of [k] together with the trace of the descent: each visited tree index
    (the loop read buffer position [k - 1] there) and the comparator's
    answer ([true]: went right, [false]: went left). *)
Fixpoint find_loop (fuel : nat) (a : list T) (value : T) (k : Z)
  : option (Z * list (Z * bool)) :=
  match fuel with
  | O => None
  | S fuel' =>
      if decide (k <= size a) then
        x ← at_ a (wrap (k - 1));
        let b := comp x value in
        '(k', path) ← find_loop fuel' a value (wrap (2 * k + Z.b2z b));
        Some (k', (k, b) :: path)
      else Some (k, [])
  end.

(** Buffer positions read by a descent. *)
Definition reads (path : list (Z * bool)) : list Z :=
  map (fun p => wrap (p.1 - 1)) path.

(** [k >>= __builtin_ffsl(~k)] *)
Definition correct (k : Z) : option Z := shr64 k (ffsl (lnot64 k)).

(** The value of [k] after the bit-trick correction. *)
Definition corrected_index (a : list T) (value : T) : option Z :=
  '(k, _) ← find_loop depth_budget a value 1;
  correct k.

(** [find]: [cbegin() + k - 1]. *)
Definition find (a : list T) (value : T) : option Z :=
  k ← corrected_index a value;
  Some (begin_ a + k - 1).

(** *** Layout builder *)

Fixpoint breadth_first_copy (fuel : nat) (inp out : list T) (i k : Z)
  : option (list T * Z) :=
  match fuel with
  | O => None
  | S fuel' =>
      if decide (k <= size inp) then
        '(out1, i1) ← breadth_first_copy fuel' inp out i (wrap (k * 2));
        x ← at_ inp i1;
        out2 ← store out1 (wrap (k - 1)) x;
        breadth_first_copy fuel' inp out2 (wrap (i1 + 1)) (wrap (k * 2 + 1))
      else Some (out, i)
  end.

(** [std::sort(arr.begin(), arr.end(), comp)] is library code; it is
    taken as a parameter and constrained by its contract, [SortsBy]
    below. *)
Variable std_sort : list T -> list T.

(** Content of the freshly declared [result] array. *)
Variable uninit : T.

Definition make_eytzinger (arr : list T) : option (list T) :=
  let arr := std_sort arr in
  let result := replicate (length arr) uninit in
  '(result, _) ← breadth_first_copy depth_budget arr result 0 1;
  Some result.

(** The constructor: the stored array is [make_eytzinger(arr, comp)]. *)
Definition eytzinger_array (arr : list T) : option (list T) :=
  make_eytzinger arr.

End Container.

(** ** Reference sort

    A straight insertion sort, the algorithm [std::sort] implementations run
    on short ranges: the elements are taken from left to right and each is
    moved back over the elements of the sorted prefix that compare greater.
    It instantiates the [std_sort] parameter in the concrete examples. *)

Section InsertionSort.
Context {T : Type} (comp : T -> T -> bool).

(** Insert [x] into the sorted prefix [l], before the first element that
    compares greater. *)
Fixpoint insert_sorted (x : T) (l : list T) : list T :=
  match l with
  | [] => [x]
  | y :: l' => if comp x y then x :: l else y :: insert_sorted x l'
  end.

Fixpoint insertion_sort_from (prefix l : list T) : list T :=
  match l with
  | [] => prefix
  | x :: l' => insertion_sort_from (insert_sorted x prefix) l'
  end.

Definition insertion_sort (l : list T) : list T := insertion_sort_from [] l.
End InsertionSort.

(** ** Contracts of the parameters *)

Section Contracts.
Context {T : Type} (comp : T -> T -> bool).

(** [x] is not greater than [y]: [!comp(y, x)]. *)
Definition not_greater (x y : T) : Prop := comp y x = false.

(** The comparator's equivalence: [!comp(x, y) && !comp(y, x)]. *)
Definition equivalent (x y : T) : Prop := comp x y = false /\ comp y x = false.

(** The C++ [Compare] requirements: a strict weak ordering. *)
Record StrictWeakOrder : Prop := {
  swo_irrefl : forall x, comp x x = false;
  swo_trans : forall x y z, comp x y = true -> comp y z = true -> comp x z = true;
  swo_equiv_trans : forall x y z, equivalent x y -> equivalent y z -> equivalent x z
}.

(** The contract of [std::sort]: the range is rearranged (a permutation) and
    afterwards no element compares less than an element before it. *)
Record SortsBy (sort : list T -> list T) : Prop := {
  sort_perm : forall l, sort l ≡ₚ l;
  sort_sorted : forall l, StronglySorted not_greater (sort l)
}.

End Contracts.

(** ** The implicit binary tree and the notions of the specification *)

Section Tree.
Context {T : Type} (comp : T -> T -> bool).

(** In-order traversal of the buffer [a] read as an implicit binary tree:
    node [k] (stored at position [k - 1]) comes between its left subtree,
    rooted at [2 * k], and its right subtree, rooted at [2 * k + 1]. *)
Inductive InOrder (a : list T) : Z -> list T -> Prop :=
| InOrder_leaf k :
    size a < k -> InOrder a k []
| InOrder_node k x l r :
    1 <= k <= size a ->
    at_ a (k - 1) = Some x ->
    InOrder a (2 * k) l ->
    InOrder a (2 * k + 1) r ->
    InOrder a k (l ++ x :: r).

(** The same traversal as a function, for a tree of depth at most [depth]. *)
Fixpoint inorder (depth : nat) (a : list T) (k : Z) : list T :=
  match depth with
  | O => []
  | S d =>
      if decide (k <= size a) then
        match at_ a (k - 1) with
        | Some x => inorder d a (2 * k) ++ x :: inorder d a (2 * k + 1)
        | None => []
        end
      else []
  end.

(** Tree indices of the subtree rooted at [k] in a tree of [n] nodes, in
    in-order, down to [depth] levels. *)
Fixpoint nodes (depth : nat) (n k : Z) : list Z :=
  match depth with
  | O => []
  | S d =>
      if decide (k <= n) then nodes d n (2 * k) ++ k :: nodes d n (2 * k + 1)
      else []
  end.

(** Number of levels of a tree of [n] nodes. *)
Definition levels (n : Z) : nat := S (Z.to_nat (Z.log2 n)).

(** The in-order enumeration of the tree indices [1 .. n]. *)
Definition inorder_indices (n : Z) : list Z := nodes (levels n) n 1.

(** The in-order traversal of a whole buffer. *)
Definition inorder_traversal (a : list T) : list T := inorder (levels (size a)) a 1.

(** The descent of [find] on unbounded integers: from tree index [k] to the
    exit index [k'], with its trace. *)
Inductive Walk (a : list T) (value : T) : Z -> Z -> list (Z * bool) -> Prop :=
| Walk_exit k :
    size a < k -> Walk a value k k []
| Walk_step k x k' path :
    1 <= k <= size a ->
    at_ a (k - 1) = Some x ->
    Walk a value (2 * k + Z.b2z (comp x value)) k' path ->
    Walk a value k k' ((k, comp x value) :: path).

(** Tree indices at which a descent went left, in visit order. *)
Definition left_turns (path : list (Z * bool)) : list Z :=
  (filter (fun p => p.2 = false) path).*1.

(** The last node at which a descent went left, if any. *)
Definition last_left (path : list (Z * bool)) : option Z :=
  last (left_turns path).

(** The candidate index carried by a descent: the last node at which it
    went left, or [c] when it never did. *)
Fixpoint candidate (c : Z) (path : list (Z * bool)) : Z :=
  match path with
  | [] => c
  | (k, b) :: path' => candidate (if b then c else k) path'
  end.

(** The candidate [c] designates the first element of [post], the stored
    elements known not to be less than the target. *)
Definition candidate_ok (a : list T) (c : Z) (post : list T) : Prop :=
  match post with
  | [] => c = 0
  | y :: _ => 1 <= c <= size a /\ at_ a (c - 1) = Some y
  end.

(** Position [p] holds a least stored element that is not less than
    [value] (the [std::lower_bound] element). *)
Definition lower_bound_at (a : list T) (value : T) (p : Z) : Prop :=
  exists y, at_ a p = Some y /\ comp y value = false /\
    forall x, x ∈ a -> comp x value = false -> comp x y = false.

(** Position [p] holds a greatest stored element that is not greater than
    [value]. *)
Definition floor_at (a : list T) (value : T) (p : Z) : Prop :=
  exists y, at_ a p = Some y /\ comp value y = false /\
    forall x, x ∈ a -> comp value x = false -> comp y x = false.

(** Position [p] holds a least stored element. *)
Definition minimum_at (a : list T) (p : Z) : Prop :=
  exists y, at_ a p = Some y /\ forall x, x ∈ a -> comp x y = false.

End Tree.

(** ** The instance of the examples: [int] with [std::less] *)

Definition sortZ : list Z -> list Z := insertion_sort Z.ltb.

Definition layoutZ (arr : list Z) : option (list Z) :=
  make_eytzinger sortZ 0 arr.

Definition findZ (a : list Z) (value : Z) : option Z := find Z.ltb a value.

(** ** A comparator with ties: records ordered by their key *)

Definition key_less (x y : Z * Z) : bool := x.1 <? y.1.

(** ** Further notions: subtrees and ranks *)

Section Ranks.
Context {T : Type} (comp : T -> T -> bool).

(** Node [j] lies in the subtree rooted at [k]: the binary form of [j] is
    that of [k] followed by [d] further digits. *)
Definition in_subtree (k j : Z) : Prop :=
  exists d : nat, k * 2 ^ Z.of_nat d <= j < (k + 1) * 2 ^ Z.of_nat d.

(** Number of nodes of the subtree rooted at [k] in a tree of [n] nodes. *)
Definition subtree_size (n k : Z) : Z :=
  Z.of_nat (length (nodes (levels n) n k)).

(** Number of elements of [a] that are less than [value]. *)
Definition count_less (a : list T) (value : T) : nat :=
  length (filter (fun x => comp x value = true) a).

(** The candidate [c] is the first tree index of [post], the nodes known to
    hold elements that are not less than the target. *)
Definition candidate_node (c : Z) (post : list Z) : Prop :=
  match post with
  | [] => c = 0
  | j :: _ => c = j
  end.

End Ranks.

(** * Verification *)

(** ** Word arithmetic *)

Lemma wrap_small x : 0 <= x < 2 ^ 64 -> wrap x = x.
Proof. intros H. unfold wrap. by apply Z.mod_small. Qed.

Lemma max_size_depth : max_size < 2 ^ Z.of_nat tree_depth.
Proof. done. Qed.

Lemma pow2_pos (d : nat) : 0 < 2 ^ Z.of_nat d.
Proof. apply Z.pow_pos_nonneg; lia. Qed.

Lemma pow2_S (d : nat) : 2 ^ Z.of_nat (S d) = 2 * 2 ^ Z.of_nat d.
Proof. rewrite Nat2Z.inj_succ, Z.pow_succ_r; lia. Qed.

Lemma pow2_le (d e : nat) : (d <= e)%nat -> 2 ^ Z.of_nat d <= 2 ^ Z.of_nat e.
Proof. intros H. apply Z.pow_le_mono_r; lia. Qed.

Lemma pow2_lt (d e : nat) : (d < e)%nat -> 2 * 2 ^ Z.of_nat d <= 2 ^ Z.of_nat e.
Proof. intros H. rewrite <- pow2_S. apply pow2_le. lia. Qed.

Lemma ffs_from_spec n i x j :
  0 <= i <= j -> j < i + Z.of_nat n ->
  Z.testbit x j = true ->
  (forall l, i <= l < j -> Z.testbit x l = false) ->
  ffs_from n i x = j + 1.
Proof.
  revert i. induction n as [|n IH]; intros i Hij Hn Hj Hlow; [lia|].
  simpl. destruct (Z.testbit x i) eqn:Hi.
  - destruct (decide (i = j)) as [->|Hne]; [done|].
    rewrite Hlow in Hi by lia. done.
  - destruct (decide (i = j)) as [->|Hne]; [congruence|].
    apply IH; [lia|lia|done|]. intros l Hl. apply Hlow. lia.
Qed.

Lemma lnot64_testbit k i :
  0 <= i < 64 -> Z.testbit (lnot64 k) i = negb (Z.testbit k i).
Proof.
  intros Hi. unfold lnot64.
  rewrite Z.lxor_spec, Z.ones_spec_low by lia. apply xorb_true_r.
Qed.

(** The bit trick: when [k + 1 = (2 c + 1) * 2 ^ m], the binary form of [k]
    is that of [c], a zero, and [m] ones; the correction strips the ones
    and the zero. *)
Lemma correct_spec k c m :
  0 <= c -> 0 <= m < 63 -> k + 1 = (2 * c + 1) * 2 ^ m ->
  correct k = Some c.
Proof.
  intros Hc Hm Hk.
  assert (Hpos : 0 < 2 ^ m) by (apply Z.pow_pos_nonneg; lia).
  assert (Hsucc : 2 ^ (m + 1) = 2 * 2 ^ m) by (rewrite Z.pow_add_r; lia).
  assert (Hmod : k `mod` 2 ^ (m + 1) = Z.ones m).
  { rewrite Z.ones_equiv. symmetry.
    apply (Z.mod_unique_pos _ _ c); lia. }
  assert (Hbits : forall l, 0 <= l <= m -> Z.testbit k l = Z.testbit (Z.ones m) l).
  { intros l Hl. rewrite <- Hmod, Z.mod_pow2_bits_low; [done|lia]. }
  assert (Hffs : ffsl (lnot64 k) = m + 1).
  { apply ffs_from_spec; [lia|lia| |].
    - rewrite lnot64_testbit, Hbits, Z.ones_spec_high by lia. done.
    - intros l Hl. rewrite lnot64_testbit, Hbits, Z.ones_spec_low by lia. done. }
  unfold correct, shr64. rewrite Hffs.
  destruct (decide (m + 1 < 64)); [|lia].
  f_equal. rewrite Z.shiftr_div_pow2 by lia.
  symmetry. apply (Z.div_unique_pos _ _ _ (2 ^ m - 1)); lia.
Qed.

(** ** The descent of [find] *)

Section Descent.
Context {T : Type} (comp : T -> T -> bool).
Implicit Types (a : list T) (value : T) (k c : Z) (path : list (Z * bool)).

Lemma at_in_range a i : 0 <= i < size a -> is_Some (at_ a i).
Proof.
  intros Hi. unfold at_. apply lookup_lt_is_Some. unfold size in Hi. lia.
Qed.

Lemma at_elem_of a i x : at_ a i = Some x -> x ∈ a.
Proof. unfold at_. apply list_elem_of_lookup_2. Qed.

(** The loop computes a [Walk]: within the budget nothing wraps around, no
    read is out of range, and the loop exits. *)
Lemma find_loop_walk a value (f : nat) k :
  1 <= k -> size a < k * 2 ^ Z.of_nat f -> size a <= max_size ->
  exists k' path,
    find_loop comp (S f) a value k = Some (k', path) /\ Walk comp a value k k' path.
Proof.
  unfold max_size. revert k. induction f as [|f IH]; intros k Hk Hf Hmax.
  - simpl in *. destruct (decide (k <= size a)); [lia|].
    eexists _, _. split; [done|]. constructor. lia.
  - cbn [find_loop]. destruct (decide (k <= size a)) as [Hle|Hgt].
    + rewrite wrap_small by lia.
      destruct (at_in_range a (k - 1)) as [x Hx]; [lia|]. rewrite Hx. cbn [mbind option_bind].
      assert (Hb : 0 <= Z.b2z (comp x value) <= 1) by (destruct (comp x value); simpl; lia).
      rewrite wrap_small by lia.
      destruct (IH (2 * k + Z.b2z (comp x value))) as (k' & path & Hrun & Hwalk); [lia| |lia|].
      { rewrite pow2_S in Hf. pose proof (pow2_pos f). nia. }
      cbn [find_loop] in Hrun. rewrite Hrun. cbn.
      eexists _, _. split; [done|]. by econstructor.
    + eexists _, _. split; [done|]. constructor. lia.
Qed.

(** More fuel does not change the result. *)
Lemma find_loop_fuel_mono a value (f g : nat) k r :
  (f <= g)%nat -> find_loop comp f a value k = Some r -> find_loop comp g a value k = Some r.
Proof.
  revert g k r. induction f as [|f IH]; intros g k r Hfg Hrun; [done|].
  destruct g as [|g]; [lia|]. cbn [find_loop] in *.
  destruct (decide (k <= size a)); [|done].
  destruct (at_ a (wrap (k - 1))) as [x|]; [|done]. cbn [mbind option_bind] in *.
  destruct (find_loop comp f a value _) as [[k' path]|] eqn:Hf; [|done].
  rewrite (IH g _ _ ltac:(lia) Hf). done.
Qed.

Lemma Walk_nodes a value k k' path :
  Walk comp a value k k' path -> Forall (fun p => 1 <= p.1 <= size a) path.
Proof. induction 1; constructor; done. Qed.

Lemma Walk_exit_bound a value k k' path :
  Walk comp a value k k' path -> 1 <= k ->
  size a < k' /\ (k' <= 2 * size a + 1 \/ k' = k /\ path = []).
Proof.
  induction 1 as [k Hk|k x k' path Hk Hx Hw IH]; intros H1; [by auto|].
  assert (Hb : 0 <= Z.b2z (comp x value) <= 1) by (destruct (comp x value); simpl; lia).
  destruct IH as [? [?|[-> ->]]]; [lia|split; [lia|left; lia]..].
Qed.

End Descent.

(** ** The bit trick recovers the last left turn *)

Section BitTrick.
Context {T : Type} (comp : T -> T -> bool).
Implicit Types (a : list T) (value : T) (k c : Z) (path : list (Z * bool)).

Lemma candidate_last_left c path :
  candidate c path = default c (last_left path).
Proof.
  revert c. induction path as [|[k b] path IH]; intros c; [done|].
  cbn [candidate]. rewrite IH. unfold last_left, left_turns.
  destruct b.
  - rewrite filter_cons_False by (simpl; congruence). done.
  - rewrite filter_cons_True by done. rewrite fmap_cons, last_cons.
    by destruct (last _).
Qed.

Lemma Walk_candidate a value k k' path :
  Walk comp a value k k' path ->
  forall c m, 0 <= m -> k + 1 = (2 * c + 1) * 2 ^ m ->
  exists m', 0 <= m' /\ k' + 1 = (2 * candidate c path + 1) * 2 ^ m'.
Proof.
  induction 1 as [k Hk|k x k' path Hk Hx Hw IH]; intros c m Hm Hkc.
  - by exists m.
  - cbn [candidate]. destruct (comp x value); cbn [Z.b2z] in IH.
    + apply (IH c (m + 1)); [lia|]. rewrite Z.pow_add_r by lia. lia.
    + apply (IH k 0); [lia|]. lia.
Qed.

(** A descent from the root that took a left turn: the correction is
    defined and yields the candidate. *)
Lemma Walk_correct_left a value k' path :
  Walk comp a value 1 k' path -> size a <= max_size ->
  1 <= candidate 0 path ->
  correct k' = Some (candidate 0 path).
Proof.
  unfold max_size. intros Hw Hmax Hc.
  destruct (Walk_candidate _ _ _ _ _ Hw 0 1) as (m & Hm & Hk'); [lia|done|].
  destruct (Walk_exit_bound _ _ _ _ _ _ Hw) as [_ Hb]; [lia|].
  apply (correct_spec _ _ m); [lia| |done].
  split; [done|]. apply (Z.pow_lt_mono_r_iff 2); [lia|lia|].
  assert (0 < 2 ^ m) by (apply Z.pow_pos_nonneg; lia).
  change (2 ^ 63) with 9223372036854775808 in *.
  destruct Hb as [?|[-> ->]]; [nia|]. simpl in Hc. lia.
Qed.

(** A descent from the root that never went left: the correction yields 0
    (when the exit index stays below [2 ^ 63 - 1], so that the shift count
    stays below 64). *)
Lemma Walk_correct_miss a value k' path :
  Walk comp a value 1 k' path -> size a < 2 ^ 62 - 1 ->
  candidate 0 path = 0 ->
  correct k' = Some 0.
Proof.
  intros Hw Hmax Hc.
  destruct (Walk_candidate _ _ _ _ _ Hw 0 1) as (m & Hm & Hk'); [lia|done|].
  destruct (Walk_exit_bound _ _ _ _ _ _ Hw) as [_ Hb]; [lia|].
  rewrite Hc in Hk'.
  apply (correct_spec _ _ m); [lia| |done].
  split; [done|]. apply (Z.pow_lt_mono_r_iff 2); [lia|lia|].
  change (2 ^ 62) with 4611686018427387904 in *.
  change (2 ^ 63) with 9223372036854775808 in *.
  destruct Hb as [?|[-> ->]]; [lia|].
  pose proof (Nat2Z.is_nonneg (length a)). unfold size in *. lia.
Qed.

End BitTrick.

(** ** Strict weak orders *)

Section Order.
Context {T : Type} (comp : T -> T -> bool).
Hypothesis swo : StrictWeakOrder comp.

Lemma swo_asym x y : comp x y = true -> comp y x = false.
Proof.
  intros Hxy. destruct (comp y x) eqn:Hyx; [|done].
  pose proof (swo_trans _ swo _ _ _ Hxy Hyx) as Hxx.
  rewrite (swo_irrefl _ swo) in Hxx. done.
Qed.

(** If [x < z] then every [y] is above [x] or below [z]. *)
Lemma swo_cotrans x y z :
  comp x z = true -> comp x y = true \/ comp y z = true.
Proof.
  intros Hxz.
  destruct (comp x y) eqn:Hxy; [by left|].
  destruct (comp y z) eqn:Hyz; [by right|]. exfalso.
  destruct (comp y x) eqn:Hyx.
  { rewrite (swo_trans _ swo _ _ _ Hyx Hxz) in Hyz. done. }
  destruct (comp z y) eqn:Hzy.
  { rewrite (swo_trans _ swo _ _ _ Hxz Hzy) in Hxy. done. }
  destruct (swo_equiv_trans _ swo x y z) as [Hxz' _]; [done|done|].
  congruence.
Qed.

Lemma not_greater_below x y value :
  not_greater comp y x -> comp x value = true -> comp y value = true.
Proof.
  unfold not_greater. intros Hyx Hxv.
  destruct (swo_cotrans x y value Hxv); [congruence|done].
Qed.

Lemma not_greater_above x z value :
  not_greater comp x z -> comp x value = false -> comp z value = false.
Proof.
  unfold not_greater. intros Hxz Hxv.
  destruct (comp z value) eqn:Hzv; [|done].
  destruct (swo_cotrans z x value Hzv); congruence.
Qed.

Lemma not_greater_trans x y z :
  not_greater comp x y -> not_greater comp y z -> not_greater comp x z.
Proof.
  unfold not_greater. intros Hxy Hyz.
  destruct (comp z x) eqn:Hzx; [|done].
  destruct (swo_cotrans z y x Hzx); congruence.
Qed.

End Order.

(** ** The descent on a search tree *)

Section Search.
Context {T : Type} (comp : T -> T -> bool).
Hypothesis swo : StrictWeakOrder comp.
Implicit Types (a : list T) (value : T) (k c : Z) (path : list (Z * bool)).

Lemma InOrder_leaf_inv a k vals :
  InOrder a k vals -> size a < k -> vals = [].
Proof. destruct 1; [done|lia]. Qed.

Lemma InOrder_node_inv a k vals x :
  InOrder a k vals -> k <= size a -> at_ a (k - 1) = Some x ->
  exists l r, vals = l ++ x :: r /\ InOrder a (2 * k) l /\ InOrder a (2 * k + 1) r.
Proof.
  destruct 1 as [k Hk|k x' l r Hk Hx' Hl Hr]; intros Hle Hx; [lia|].
  assert (x' = x) as -> by congruence. eauto.
Qed.

(** Invariant of the descent.  The sorted sequence splits into the elements
    already known to be less than the target ([pre]), the subtree still to
    be searched, and the elements known not to be less ([post]); the
    candidate designates the first element of [post]. *)
Lemma Walk_partition a value k k' path :
  Walk comp a value k k' path ->
  forall vals pre post c,
    InOrder a k vals ->
    StronglySorted (not_greater comp) (pre ++ vals ++ post) ->
    Forall (fun x => comp x value = true) pre ->
    Forall (fun x => comp x value = false) post ->
    candidate_ok a c post ->
    exists pre' post',
      pre ++ vals ++ post = pre' ++ post' /\
      Forall (fun x => comp x value = true) pre' /\
      Forall (fun x => comp x value = false) post' /\
      candidate_ok a (candidate c path) post'.
Proof.
  induction 1 as [k Hk|k x k' path Hk Hx Hw IH];
    intros vals pre post c Hin Hsort Hpre Hpost Hc.
  - rewrite (InOrder_leaf_inv _ _ _ Hin Hk). exists pre, post. done.
  - destruct (InOrder_node_inv _ _ _ _ Hin ltac:(lia) Hx) as (l & r & -> & Hl & Hr).
    cbn [candidate]. destruct (comp x value) eqn:Hxv; cbn [Z.b2z] in *.
    + destruct (IH r (pre ++ l ++ [x]) post c) as (pre' & post' & Heq & ?); [done| | |done|done|].
      * rewrite <- !app_assoc. simpl. by rewrite <- app_assoc in Hsort.
      * rewrite !Forall_app. split_and!; [done| |by constructor].
        apply Forall_forall. intros y Hy.
        apply (not_greater_below comp swo x); [|done].
        apply StronglySorted_app_1_r in Hsort. rewrite <- app_assoc in Hsort.
        eapply (StronglySorted_app_1_elem_of _ _ _ _ _ Hsort); [done|].
        apply elem_of_cons. by left.
      * exists pre', post'. split; [|done]. rewrite <- Heq, <- !app_assoc. done.
    + rewrite Z.add_0_r in *.
      destruct (IH l pre (x :: r ++ post) k) as (pre' & post' & Heq & ?); [done| |done| |done|].
      * by rewrite <- app_assoc in Hsort.
      * constructor; [done|]. rewrite Forall_app. split; [|done].
        apply Forall_forall. intros z Hz.
        apply (not_greater_above comp swo x); [|done].
        apply StronglySorted_app_1_r in Hsort. rewrite <- app_assoc in Hsort.
        apply StronglySorted_app_1_r in Hsort.
        apply StronglySorted_cons in Hsort as [Hall _].
        rewrite Forall_forall in Hall. apply Hall.
        apply elem_of_app. by left.
      * exists pre', post'. split; [|done]. rewrite <- Heq, <- !app_assoc. done.
Qed.

(** [find]'s loop on a buffer whose in-order traversal is sorted: it
    returns, and its candidate splits the sorted sequence at the target. *)
Lemma find_loop_search_tree a sorted value :
  InOrder a 1 sorted ->
  StronglySorted (not_greater comp) sorted ->
  size a <= max_size ->
  exists k' path pre post,
    find_loop comp depth_budget a value 1 = Some (k', path) /\
    Walk comp a value 1 k' path /\
    sorted = pre ++ post /\
    Forall (fun x => comp x value = true) pre /\
    Forall (fun x => comp x value = false) post /\
    candidate_ok a (candidate 0 path) post.
Proof.
  intros Hin Hsort Hmax.
  destruct (find_loop_walk comp a value tree_depth 1) as (k' & path & Hrun & Hw); [lia| |done|].
  { pose proof max_size_depth. lia. }
  destruct (Walk_partition _ _ _ _ _ Hw sorted [] [] 0)
    as (pre & post & Heq & Hpre & Hpost & Hc); [done| |done|done|done|].
  { by rewrite app_nil_r. }
  exists k', path, pre, post. rewrite app_nil_r in Heq. done.
Qed.

End Search.

(** ** The shape of the implicit tree *)

Section Shape.
Implicit Types (n k j : Z) (f d : nat).

(** Node [j] lies in the subtree of [k] exactly when, for some depth [d],
    [k * 2 ^ d <= j < (k + 1) * 2 ^ d]. *)
Lemma elem_of_nodes f n k j :
  1 <= k ->
  j ∈ nodes f n k <->
  j <= n /\ exists d, (d < f)%nat /\ k * 2 ^ Z.of_nat d <= j < (k + 1) * 2 ^ Z.of_nat d.
Proof.
  revert k. induction f as [|f IH]; intros k Hk; cbn [nodes].
  { split; [by intros ?%elem_of_nil|]. intros (_ & d & ? & _). lia. }
  destruct (decide (k <= n)) as [Hle|Hgt].
  - rewrite elem_of_app, elem_of_cons, !IH by lia. split.
    + intros [(? & d & ? & ?)|[->|(? & d & ? & ?)]].
      * split; [done|]. exists (S d). rewrite pow2_S.
        pose proof (pow2_pos d). split; [lia|nia].
      * split; [done|]. exists 0%nat. simpl. lia.
      * split; [done|]. exists (S d). rewrite pow2_S.
        pose proof (pow2_pos d). split; [lia|nia].
    + intros (Hj & [|d] & Hd & Hr).
      * right; left. simpl in Hr. lia.
      * rewrite pow2_S in Hr. pose proof (pow2_pos d).
        destruct (decide (j < (2 * k + 1) * 2 ^ Z.of_nat d)).
        -- left. split; [done|]. exists d. split; [lia|nia].
        -- right; right. split; [done|]. exists d. split; [lia|nia].
  - split; [by intros ?%elem_of_nil|]. intros (Hj & d & _ & Hr).
    pose proof (pow2_pos d). nia.
Qed.

Lemma nodes_range f n k j : 1 <= k -> j ∈ nodes f n k -> k <= j <= n.
Proof.
  intros Hk (Hj & d & _ & Hr)%elem_of_nodes; [|done].
  pose proof (pow2_pos d). nia.
Qed.

(** The left and right subtrees of a node share no index. *)
Lemma nodes_disjoint f n k j :
  1 <= k -> j ∈ nodes f n (2 * k) -> j ∈ nodes f n (2 * k + 1) -> False.
Proof.
  intros Hk (_ & d & _ & Hl)%elem_of_nodes (_ & e & _ & Hr)%elem_of_nodes; [|lia..].
  pose proof (pow2_pos d). pose proof (pow2_pos e).
  destruct (decide (d = e)) as [->|Hne]; [nia|].
  destruct (decide (d < e)%nat).
  - pose proof (pow2_lt d e ltac:(lia)). nia.
  - pose proof (pow2_lt e d ltac:(lia)). nia.
Qed.

Lemma NoDup_nodes f n k : 1 <= k -> NoDup (nodes f n k).
Proof.
  revert k. induction f as [|f IH]; intros k Hk; cbn [nodes]; [constructor|].
  destruct (decide (k <= n)); [|constructor].
  apply NoDup_app. split_and!.
  - apply IH. lia.
  - intros j Hj [->|Hj']%elem_of_cons.
    + apply nodes_range in Hj; lia.
    + by eapply nodes_disjoint.
  - constructor; [|apply IH; lia].
    intros Hj. apply nodes_range in Hj; lia.
Qed.

(** With enough depth, the traversal from the root enumerates [1 .. n]. *)
Lemma elem_of_nodes_root f n j :
  n < 2 ^ Z.of_nat f -> j ∈ nodes f n 1 <-> 1 <= j <= n.
Proof.
  intros Hf. rewrite elem_of_nodes by lia. split.
  - intros (? & d & _ & ?). pose proof (pow2_pos d). lia.
  - intros Hj. split; [lia|].
    destruct (Z.log2_spec j) as [Hlo Hhi]; [lia|].
    pose proof (Z.log2_nonneg j).
    exists (Z.to_nat (Z.log2 j)). rewrite Z2Nat.id by done.
    rewrite Z.pow_succ_r in Hhi by done. split; [|lia].
    apply Nat2Z.inj_lt. rewrite Z2Nat.id by done.
    apply (Z.pow_lt_mono_r_iff 2); lia.
Qed.

Lemma nodes_root_Permutation f n :
  n < 2 ^ Z.of_nat f -> nodes f n 1 ≡ₚ seqZ 1 n.
Proof.
  intros Hf. apply NoDup_Permutation.
  - apply NoDup_nodes. lia.
  - apply NoDup_seqZ.
  - intros j. rewrite elem_of_nodes_root, elem_of_seqZ by done. lia.
Qed.

Lemma length_nodes_root f n :
  0 <= n < 2 ^ Z.of_nat f -> Z.of_nat (length (nodes f n 1)) = n.
Proof.
  intros Hf. rewrite (nodes_root_Permutation f n), length_seqZ by lia. lia.
Qed.

Lemma levels_spec n : n < 2 ^ Z.of_nat (levels n).
Proof.
  unfold levels. rewrite Nat2Z.inj_succ, Z2Nat.id by apply Z.log2_nonneg.
  destruct (decide (0 < n)) as [Hn|Hn].
  - by apply Z.log2_spec.
  - assert (0 < 2 ^ Z.succ (Z.log2 n)); [|lia].
    apply Z.pow_pos_nonneg; [lia|]. pose proof (Z.log2_nonneg n). lia.
Qed.

Lemma levels_bound n : n <= max_size -> (levels n <= tree_depth)%nat.
Proof.
  unfold max_size, levels, tree_depth. intros Hn.
  destruct (decide (0 < n)) as [Hpos|Hneg].
  - assert (Z.log2 n < 63); [|lia]. apply Z.log2_lt_pow2; lia.
  - rewrite Z.log2_nonpos by lia. simpl. lia.
Qed.

Lemma inorder_indices_Permutation n : inorder_indices n ≡ₚ seqZ 1 n.
Proof. apply nodes_root_Permutation, levels_spec. Qed.

Lemma length_inorder_indices n :
  0 <= n -> Z.of_nat (length (inorder_indices n)) = n.
Proof. intros Hn. apply length_nodes_root. pose proof (levels_spec n). lia. Qed.

End Shape.

(** ** The layout builder *)

Section Builder.
Context {T : Type}.
Implicit Types (inp out a : list T) (i k j n : Z) (f : nat).

Lemma breadth_first_copy_unfold f inp out i k :
  breadth_first_copy (S f) inp out i k =
  if decide (k <= size inp) then
    '(out1, i1) ← breadth_first_copy f inp out i (wrap (k * 2));
    x ← at_ inp i1;
    out2 ← store out1 (wrap (k - 1)) x;
    breadth_first_copy f inp out2 (wrap (i1 + 1)) (wrap (k * 2 + 1))
  else Some (out, i).
Proof. done. Qed.

(** More fuel does not change the result. *)
Lemma breadth_first_copy_fuel_mono (f g : nat) inp out i k r :
  (f <= g)%nat ->
  breadth_first_copy f inp out i k = Some r ->
  breadth_first_copy g inp out i k = Some r.
Proof.
  revert g out i k r. induction f as [|f IH]; intros g out i k r Hfg Hrun; [done|].
  destruct g as [|g]; [lia|]. rewrite breadth_first_copy_unfold in *.
  destruct (decide (k <= size inp)); [|done].
  destruct (breadth_first_copy f inp out i (wrap (k * 2))) as [[out1 i1]|] eqn:H1; [|done].
  rewrite (IH g _ _ _ _ ltac:(lia) H1). cbn [mbind option_bind] in *.
  destruct (at_ inp i1) as [x|]; [|done]. cbn [mbind option_bind] in *.
  destruct (store out1 (wrap (k - 1)) x) as [out2|]; [|done]. cbn [mbind option_bind] in *.
  apply IH; [lia|done].
Qed.

Lemma at_insert_eq out j x :
  0 <= j < size out -> at_ (<[Z.to_nat j := x]> out) j = Some x.
Proof.
  intros Hj. unfold at_. apply list_lookup_insert_eq. unfold size in Hj. lia.
Qed.

Lemma at_insert_ne out j j' x :
  0 <= j -> 0 <= j' -> j <> j' -> at_ (<[Z.to_nat j := x]> out) j' = at_ out j'.
Proof. intros ? ? Hne. unfold at_. apply list_lookup_insert_ne. lia. Qed.

Lemma size_insert out (p : nat) x : size (<[p := x]> out) = size out.
Proof. unfold size. by rewrite length_insert. Qed.

(** [breadth_first_copy] on the subtree of [k]: it returns, it consumes one
    input element per node of the subtree, it stores the [p]-th consumed
    element at the [p]-th node of the subtree in in-order, and it leaves the
    rest of [out] alone. *)
Lemma breadth_first_copy_spec f inp out i k :
  1 <= k ->
  size inp < k * 2 ^ Z.of_nat f ->
  size inp <= max_size ->
  size out = size inp ->
  0 <= i ->
  i + Z.of_nat (length (nodes f (size inp) k)) <= size inp ->
  exists out',
    breadth_first_copy (S f) inp out i k
      = Some (out', i + Z.of_nat (length (nodes f (size inp) k))) /\
    size out' = size inp /\
    (forall (p : nat) j, nodes f (size inp) k !! p = Some j ->
       at_ out' (j - 1) = at_ inp (i + Z.of_nat p)) /\
    (forall j, 1 <= j -> j ∉ nodes f (size inp) k -> at_ out' (j - 1) = at_ out (j - 1)).
Proof.
  unfold max_size. revert out i k.
  induction f as [|f IH]; intros out i k Hk Hf Hmax Hout Hi Hlen;
    rewrite breadth_first_copy_unfold.
  { simpl in Hf. destruct (decide (k <= size inp)); [lia|].
    exists out. simpl. rewrite Z.add_0_r. split_and!; [done|done| |done].
    intros p j ?. done. }
  cbn [nodes] in *. destruct (decide (k <= size inp)) as [Hle|Hgt]; cycle 1.
  { exists out. simpl. rewrite Z.add_0_r. split_and!; [done|done| |done].
    intros p j ?. done. }
  set (n := size inp) in *.
  set (L := nodes f n (2 * k)) in *. set (R := nodes f n (2 * k + 1)) in *.
  rewrite length_app, length_cons in Hlen.
  assert (Hf' : n < 2 * k * 2 ^ Z.of_nat f) by (rewrite pow2_S in Hf; lia).
  pose proof (pow2_pos f) as Hpow.
  (* left subtree *)
  rewrite (wrap_small (k * 2)) by lia. replace (k * 2) with (2 * k) by lia.
  destruct (IH out i (2 * k)) as (out1 & Hrun1 & Hsz1 & Hin1 & Hout1);
    [lia|done|done|done|done|fold L; lia|].
  fold L in Hrun1, Hin1, Hout1. rewrite Hrun1. cbn [mbind option_bind].
  (* the node itself *)
  destruct (at_in_range inp (i + Z.of_nat (length L))) as [x Hx]; [fold n; lia|].
  rewrite Hx. cbn [mbind option_bind].
  unfold store. rewrite (wrap_small (k - 1)) by lia.
  destruct (decide (k - 1 < size out1)); [|lia]. cbn [mbind option_bind].
  set (out2 := <[Z.to_nat (k - 1) := x]> out1).
  (* right subtree *)
  rewrite !wrap_small by lia.
  destruct (IH out2 (i + Z.of_nat (length L) + 1) (2 * k + 1))
    as (out3 & Hrun3 & Hsz3 & Hin3 & Hout3);
    [lia|fold n; nia|done|by unfold out2; rewrite size_insert|lia|fold R; lia|].
  fold R in Hrun3, Hin3, Hout3. rewrite Hrun3.
  assert (HkR : k ∉ R).
  { intros Hin. apply nodes_range in Hin; lia. }
  exists out3. split_and!.
  - f_equal. f_equal. rewrite length_app, length_cons. lia.
  - done.
  - intros p j [HpL|[Hp HpR]]%lookup_app_Some.
    + assert (HjL : j ∈ L) by (by eapply list_elem_of_lookup_2).
      pose proof (nodes_range f n (2 * k) j ltac:(lia) HjL).
      rewrite Hout3; [|lia|by intros ?; eapply (nodes_disjoint f n k j)].
      unfold out2. rewrite at_insert_ne by lia. by apply Hin1.
    + apply lookup_cons_Some in HpR as [[Hp0 <-]|[Hp1 HpR]].
      * rewrite Hout3 by (done || lia). unfold out2.
        rewrite at_insert_eq by lia. rewrite <- Hx. f_equal. lia.
      * rewrite (Hin3 _ _ HpR). f_equal. lia.
  - intros j Hj Hnot. rewrite not_elem_of_app, not_elem_of_cons in Hnot.
    destruct Hnot as (HnL & Hne & HnR).
    rewrite Hout3 by done. unfold out2. rewrite at_insert_ne by lia. by apply Hout1.
Qed.

End Builder.

(** ** From the stored positions to the traversal *)

Section Traversal.
Context {T : Type}.
Implicit Types (a vals : list T) (k j n : Z) (f : nat).

Lemma InOrder_of_nodes f a k vals :
  1 <= k ->
  size a < k * 2 ^ Z.of_nat f ->
  length vals = length (nodes f (size a) k) ->
  (forall (p : nat) j, nodes f (size a) k !! p = Some j -> at_ a (j - 1) = vals !! p) ->
  InOrder a k vals.
Proof.
  revert k vals. induction f as [|f IH]; intros k vals Hk Hf Hlen Hpt; cbn [nodes] in *.
  { apply nil_length_inv in Hlen as ->. constructor. simpl in Hf. lia. }
  destruct (decide (k <= size a)) as [Hle|Hgt]; cycle 1.
  { apply nil_length_inv in Hlen as ->. constructor. lia. }
  set (L := nodes f (size a) (2 * k)) in *. set (R := nodes f (size a) (2 * k + 1)) in *.
  rewrite length_app, length_cons in Hlen.
  rewrite pow2_S in Hf. pose proof (pow2_pos f).
  destruct (lookup_lt_is_Some_2 vals (length L)) as [x Hx]; [lia|].
  rewrite <- (take_drop_middle vals (length L) x Hx).
  constructor.
  - lia.
  - rewrite (Hpt (length L) k); [done|]. by apply list_lookup_middle.
  - apply IH; [lia|lia|rewrite length_take; fold L; lia|].
    intros p j Hp. rewrite lookup_take_lt by (by eapply lookup_lt_Some).
    apply Hpt. by apply lookup_app_l_Some.
  - apply IH; [lia|nia|rewrite length_drop; fold R; lia|].
    intros p j Hp. rewrite lookup_drop. apply Hpt.
    rewrite lookup_app_r by lia.
    replace (S (length L) + p - length L)%nat with (S p) by lia. done.
Qed.

(** The traversal function computes the traversal relation. *)
Lemma inorder_InOrder f a k vals :
  InOrder a k vals -> 1 <= k -> size a < k * 2 ^ Z.of_nat f ->
  inorder f a k = vals.
Proof.
  intros Hin. revert f.
  induction Hin as [k Hk|k x l r Hk Hx Hl IHl Hr IHr]; intros f Hk1 Hf.
  - destruct f; [done|]. simpl. destruct (decide (k <= size a)); [lia|done].
  - destruct f as [|f]; [simpl in Hf; lia|].
    rewrite pow2_S in Hf. pose proof (pow2_pos f).
    cbn [inorder]. destruct (decide (k <= size a)); [|lia].
    rewrite Hx, IHl, IHr by (lia || nia). done.
Qed.

Lemma omap_of_fmap {A B} (g : A -> option B) (l : list A) (l' : list B) :
  g <$> l = Some <$> l' -> omap g l = l'.
Proof.
  revert l'. induction l as [|y l IH]; intros [|y' l'] Heq; try done.
  simpl in *. injection Heq as Hy Hl. rewrite Hy. f_equal. by apply IH.
Qed.

(** A buffer filled along a permutation of its positions is a permutation
    of what was written. *)
Lemma filled_Permutation a vals (idx : list Z) :
  idx ≡ₚ seqZ 1 (size a) ->
  length vals = length idx ->
  (forall (p : nat) j, idx !! p = Some j -> at_ a (j - 1) = vals !! p) ->
  a ≡ₚ vals.
Proof.
  intros Hperm Hlen Hpt.
  set (g := fun j : Z => at_ a (j - 1)).
  assert (H1 : omap g idx = vals).
  { apply omap_of_fmap, list_eq. intros p. rewrite !list_lookup_fmap.
    destruct (idx !! p) as [j|] eqn:Hj; simpl.
    - unfold g. rewrite (Hpt _ _ Hj).
      destruct (lookup_lt_is_Some_2 vals p) as [y ->]; [|done].
      apply lookup_lt_Some in Hj. lia.
    - apply lookup_ge_None_1 in Hj.
      rewrite (lookup_ge_None_2 vals) by lia. done. }
  assert (H2 : omap g (seqZ 1 (size a)) = a).
  { apply omap_of_fmap, list_eq. intros p. rewrite !list_lookup_fmap.
    destruct (decide (Z.of_nat p < size a)) as [Hp|Hp].
    - rewrite lookup_seqZ_lt by done. simpl. unfold g, at_.
      replace (Z.to_nat (1 + Z.of_nat p - 1)) with p by lia.
      destruct (lookup_lt_is_Some_2 a p) as [y ->]; [|done].
      unfold size in Hp. lia.
    - rewrite lookup_seqZ_ge by lia. simpl.
      rewrite (lookup_ge_None_2 a); [done|]. unfold size in Hp. lia. }
  rewrite <- H1, <- H2. by rewrite Hperm.
Qed.

End Traversal.

(** ** The constructed layout *)

Section Layout.
Context {T : Type} (comp : T -> T -> bool).
Context (std_sort : list T -> list T) (uninit : T).
Hypothesis sorts : SortsBy comp std_sort.
Implicit Types (arr layout : list T).

Lemma size_std_sort arr : size (std_sort arr) = size arr.
Proof. unfold size. by rewrite (sort_perm _ _ sorts). Qed.

(** Construction returns a layout; the sorted element of rank [p] is stored
    at the [p]-th tree index of the in-order enumeration. *)
Lemma make_eytzinger_spec arr :
  size arr <= max_size ->
  exists layout,
    make_eytzinger std_sort uninit arr = Some layout /\
    size layout = size arr /\
    forall (p : nat) j,
      inorder_indices (size arr) !! p = Some j ->
      at_ layout (j - 1) = std_sort arr !! p.
Proof.
  intros Hmax. pose proof (size_std_sort arr) as Hsz.
  assert (Hpos : 0 <= size arr) by (unfold size; lia).
  pose proof (length_inorder_indices (size arr) Hpos) as Hidx.
  pose proof (levels_spec (size arr)) as Hlev.
  destruct (breadth_first_copy_spec (levels (size arr)) (std_sort arr)
              (replicate (length (std_sort arr)) uninit) 0 1)
    as (layout & Hrun & Hlen & Hin & _).
  - lia.
  - rewrite Hsz. lia.
  - by rewrite Hsz.
  - unfold size. by rewrite length_replicate.
  - lia.
  - rewrite Hsz. fold (inorder_indices (size arr)). rewrite Hidx. lia.
  - assert (Hfuel : (S (levels (size arr)) <= depth_budget)%nat).
    { apply le_n_S, levels_bound. lia. }
    exists layout. unfold make_eytzinger.
    rewrite (breadth_first_copy_fuel_mono _ _ _ _ _ _ _ Hfuel Hrun).
    split_and!; [reflexivity|congruence|].
    intros p j Hp. rewrite Hsz in Hin. rewrite (Hin p j Hp).
    unfold at_. f_equal. lia.
Qed.

Lemma make_eytzinger_InOrder arr layout :
  size arr <= max_size ->
  make_eytzinger std_sort uninit arr = Some layout ->
  size layout = size arr /\ InOrder layout 1 (std_sort arr) /\ layout ≡ₚ std_sort arr.
Proof.
  intros Hmax Hrun.
  destruct (make_eytzinger_spec arr Hmax) as (layout' & Hrun' & Hsz & Hpt).
  assert (layout' = layout) as -> by congruence.
  assert (Hpos : 0 <= size arr) by (unfold size; lia).
  assert (Hlen : length (std_sort arr) = length (inorder_indices (size arr))).
  { apply Nat2Z.inj. rewrite length_inorder_indices by done. apply size_std_sort. }
  pose proof (levels_spec (size arr)) as Hlev.
  split_and!; [done| |].
  - apply (InOrder_of_nodes (levels (size arr))); rewrite ?Hsz; [lia|lia|done|done].
  - apply (filled_Permutation _ _ (inorder_indices (size arr))); [|done|done].
    rewrite Hsz. by apply inorder_indices_Permutation.
Qed.

End Layout.

(** ** The reference sort meets the contract of [std::sort] *)

Section InsertionSortFacts.
Context {T : Type} (comp : T -> T -> bool).
Hypothesis swo : StrictWeakOrder comp.

Lemma insert_sorted_Permutation x l : insert_sorted comp x l ≡ₚ x :: l.
Proof.
  induction l as [|y l IH]; simpl; [done|].
  destruct (comp x y); [done|]. rewrite IH. apply Permutation_swap.
Qed.

Lemma insertion_sort_from_Permutation prefix l :
  insertion_sort_from comp prefix l ≡ₚ prefix ++ l.
Proof.
  revert prefix. induction l as [|x l IH]; intros prefix; simpl.
  - by rewrite app_nil_r.
  - rewrite IH, insert_sorted_Permutation. simpl. apply Permutation_middle.
Qed.

Lemma insert_sorted_StronglySorted x l :
  StronglySorted (not_greater comp) l ->
  StronglySorted (not_greater comp) (insert_sorted comp x l).
Proof.
  induction 1 as [|y l Hl IH Hy]; simpl.
  { repeat constructor. }
  destruct (comp x y) eqn:Hxy.
  - constructor; [by constructor|].
    assert (Hle : not_greater comp x y) by (by apply swo_asym).
    constructor; [done|].
    eapply Forall_impl; [exact Hy|]. intros z Hz.
    by apply (not_greater_trans comp swo x y z).
  - constructor; [done|].
    rewrite insert_sorted_Permutation. by constructor.
Qed.

Lemma insertion_sort_from_StronglySorted prefix l :
  StronglySorted (not_greater comp) prefix ->
  StronglySorted (not_greater comp) (insertion_sort_from comp prefix l).
Proof.
  revert prefix. induction l as [|x l IH]; intros prefix Hprefix; simpl; [done|].
  by apply IH, insert_sorted_StronglySorted.
Qed.

Lemma insertion_sort_SortsBy : SortsBy comp (insertion_sort comp).
Proof.
  split; intros l; unfold insertion_sort.
  - apply insertion_sort_from_Permutation.
  - apply insertion_sort_from_StronglySorted. constructor.
Qed.

End InsertionSortFacts.

(** ** [int] with [std::less] *)

Lemma Z_ltb_swo : StrictWeakOrder Z.ltb.
Proof.
  split; unfold equivalent.
  - intros x. apply Z.ltb_irrefl.
  - intros x y z ?%Z.ltb_lt ?%Z.ltb_lt. apply Z.ltb_lt. lia.
  - intros x y z [?%Z.ltb_ge ?%Z.ltb_ge] [?%Z.ltb_ge ?%Z.ltb_ge].
    split; apply Z.ltb_ge; lia.
Qed.

Lemma key_less_swo : StrictWeakOrder key_less.
Proof.
  split; unfold equivalent, key_less.
  - intros x. apply Z.ltb_irrefl.
  - intros x y z ?%Z.ltb_lt ?%Z.ltb_lt. apply Z.ltb_lt. lia.
  - intros x y z [?%Z.ltb_ge ?%Z.ltb_ge] [?%Z.ltb_ge ?%Z.ltb_ge].
    split; apply Z.ltb_ge; lia.
Qed.

Lemma sortZ_SortsBy : SortsBy Z.ltb sortZ.
Proof. apply insertion_sort_SortsBy, Z_ltb_swo. Qed.

(** ** Searching a constructed container *)

Section Find.
Context {T : Type} (comp : T -> T -> bool).
Context (std_sort : list T -> list T) (uninit : T).
Hypothesis swo : StrictWeakOrder comp.
Hypothesis sorts : SortsBy comp std_sort.
Implicit Types (arr layout : list T) (value : T).

Lemma eytzinger_array_built arr :
  size arr <= max_size ->
  exists layout,
    eytzinger_array std_sort uninit arr = Some layout /\
    size layout = size arr /\
    InOrder layout 1 (std_sort arr) /\
    layout ≡ₚ std_sort arr.
Proof.
  intros Hmax.
  destruct (make_eytzinger_spec comp std_sort uninit sorts arr Hmax) as (layout & Hrun & _).
  exists layout. split; [done|].
  by apply (make_eytzinger_InOrder comp std_sort uninit sorts).
Qed.

(** The descent when some stored element is not less than the target: the
    corrected index is the last left turn, and its position holds a least
    element among those not less than the target. *)
Lemma find_hit layout sorted value :
  InOrder layout 1 sorted ->
  StronglySorted (not_greater comp) sorted ->
  layout ≡ₚ sorted ->
  size layout <= max_size ->
  (exists x, x ∈ layout /\ comp x value = false) ->
  exists k' path c,
    find_loop comp depth_budget layout value 1 = Some (k', path) /\
    last_left path = Some c /\
    candidate 0 path = c /\
    Walk comp layout value 1 k' path /\
    corrected_index comp layout value = Some c /\
    find comp layout value = Some (c - 1) /\
    0 <= c - 1 < size layout /\
    lower_bound_at comp layout value (c - 1).
Proof.
  intros Hin Hsort Hperm Hmax (x & Hx & Hxv).
  destruct (find_loop_search_tree comp swo layout sorted value Hin Hsort Hmax)
    as (k' & path & pre & post & Hrun & Hw & -> & Hpre & Hpost & Hc).
  destruct post as [|y post].
  { exfalso. rewrite Hperm, app_nil_r in Hx.
    rewrite Forall_forall in Hpre. rewrite (Hpre x Hx) in Hxv. done. }
  destruct Hc as [Hc Hy].
  assert (Hcorr : correct k' = Some (candidate 0 path)).
  { apply (Walk_correct_left comp layout value); [done|done|lia]. }
  exists k', path, (candidate 0 path). split_and!; try done.
  - pose proof (candidate_last_left 0 path) as Hll.
    destruct (last_left path) as [c|]; simpl in Hll; [by rewrite Hll|lia].
  - unfold corrected_index. rewrite Hrun. done.
  - unfold find, corrected_index. rewrite Hrun. cbn [mbind option_bind].
    rewrite Hcorr. done.
  - lia.
  - lia.
  - exists y. split; [done|]. apply Forall_cons in Hpost as [Hyv Hpost].
    split; [done|]. intros z Hz Hzv. rewrite Hperm in Hz.
    apply elem_of_app in Hz as [Hz|Hz].
    { rewrite Forall_forall in Hpre. rewrite (Hpre z Hz) in Hzv. done. }
    apply elem_of_cons in Hz as [->|Hz]; [apply (swo_irrefl _ swo)|].
    apply StronglySorted_app_1_r, StronglySorted_cons in Hsort as [Hall _].
    rewrite Forall_forall in Hall. by apply Hall.
Qed.

End Find.

(** ** A descent that only goes left *)

Section AllLeft.
Context {T : Type} (comp : T -> T -> bool).

Lemma Walk_all_left (a : list T) value k k' path :
  Walk comp a value k k' path ->
  (forall x, x ∈ a -> comp x value = false) ->
  forall c, exists d : nat,
    k' = k * 2 ^ Z.of_nat d /\
    candidate c path = match d with O => c | S d' => k * 2 ^ Z.of_nat d' end.
Proof.
  intros Hw Hall. induction Hw as [k Hk|k x k' path Hk Hx Hw IH]; intros c.
  - exists 0%nat. simpl. split; [lia|done].
  - rewrite (Hall x) in * by (by eapply at_elem_of).
    cbn [candidate Z.b2z] in *. destruct (IH k) as (d & -> & Hc).
    exists (S d). rewrite pow2_S. split; [lia|]. rewrite Hc.
    destruct d as [|d]; [simpl; lia|]. rewrite pow2_S. lia.
Qed.

End AllLeft.

(** * Properties of the specification *)

Section Claims.
Context {T : Type} (comp : T -> T -> bool).
Context (std_sort : list T -> list T) (uninit : T).
Implicit Types (arr layout : list T) (value : T).

(** C2.  For every element [e] of the input, [find e] on the constructed
    container returns a position [p] in [[0, N)] whose element is
    equivalent to [e]: [!comp(layout[p], e) && !comp(e, layout[p])]. *)
Theorem find_present arr e :
  StrictWeakOrder comp -> SortsBy comp std_sort ->
  size arr <= max_size ->
  e ∈ arr ->
  exists layout p y,
    eytzinger_array std_sort uninit arr = Some layout /\
    size layout = size arr /\
    find comp layout e = Some p /\
    0 <= p < size layout /\
    at_ layout p = Some y /\
    comp y e = false /\ comp e y = false.
Proof.
  intros swo sorts Hmax He.
  destruct (eytzinger_array_built comp std_sort uninit sorts arr Hmax)
    as (layout & Hbuilt & Hsz & Hin & Hperm).
  assert (Hel : e ∈ layout) by (by rewrite Hperm, (sort_perm _ _ sorts)).
  destruct (find_hit comp swo layout (std_sort arr) e)
    as (k' & path & c & _ & _ & _ & _ & _ & Hfind & Hrange & y & Hy & Hye & Hleast);
    [done|apply (sort_sorted _ _ sorts)|done|lia| |].
  { exists e. split; [done|]. apply (swo_irrefl _ swo). }
  exists layout, (c - 1), y. split_and!; try done; try lia.
  apply Hleast; [done|]. apply (swo_irrefl _ swo).
Qed.

(** C3.  The in-order traversal of the constructed layout, read as an
    implicit binary tree (node [k] between the subtrees rooted at [2k] and
    [2k+1]), is exactly the input sorted under the comparator; hence the
    layout is a permutation of the input. *)
Theorem layout_inorder_sorted arr :
  SortsBy comp std_sort ->
  size arr <= max_size ->
  exists layout,
    eytzinger_array std_sort uninit arr = Some layout /\
    size layout = size arr /\
    InOrder layout 1 (std_sort arr) /\
    inorder_traversal layout = std_sort arr /\
    StronglySorted (not_greater comp) (std_sort arr) /\
    std_sort arr ≡ₚ arr /\
    layout ≡ₚ arr.
Proof.
  intros sorts Hmax.
  destruct (eytzinger_array_built comp std_sort uninit sorts arr Hmax)
    as (layout & Hbuilt & Hsz & Hin & Hperm).
  exists layout. split_and!; [done|done|done| | | |].
  - apply inorder_InOrder; [done|lia|]. pose proof (levels_spec (size layout)). lia.
  - apply (sort_sorted _ _ sorts).
  - apply (sort_perm _ _ sorts).
  - by rewrite Hperm, (sort_perm _ _ sorts).
Qed.

(** C6.  When some stored element is not less than the target, [find]
    returns the position of a least stored element that is not less than
    the target ([std::lower_bound]), and the corrected index is the tree
    index of the last node at which the descent went left. *)
Theorem find_lower_bound arr value :
  StrictWeakOrder comp -> SortsBy comp std_sort ->
  size arr <= max_size ->
  (exists x, x ∈ arr /\ comp x value = false) ->
  exists layout k' path c,
    eytzinger_array std_sort uninit arr = Some layout /\
    size layout = size arr /\
    find_loop comp depth_budget layout value 1 = Some (k', path) /\
    last_left path = Some c /\
    corrected_index comp layout value = Some c /\
    find comp layout value = Some (c - 1) /\
    0 <= c - 1 < size layout /\
    lower_bound_at comp layout value (c - 1).
Proof.
  intros swo sorts Hmax (x & Hx & Hxv).
  destruct (eytzinger_array_built comp std_sort uninit sorts arr Hmax)
    as (layout & Hbuilt & Hsz & Hin & Hperm).
  destruct (find_hit comp swo layout (std_sort arr) value)
    as (k' & path & c & Hrun & Hlast & _ & _ & Hcorr & Hfind & Hrange & Hlb);
    [done|apply (sort_sorted _ _ sorts)|done|lia| |].
  { exists x. split; [|done]. by rewrite Hperm, (sort_perm _ _ sorts). }
  exists layout, k', path, c. done.
Qed.

(** C1 (amended).  [find] is a lower-bound search.  For every target that
    is not greater than every stored element, [find target] returns the
    position of a least stored element that is not less than the target;
    in particular, for a target strictly between two elements
    [a < target < b] that are adjacent in sorted order, the element at the
    returned position is [b] (equivalent to [b]), not [a]. *)
Theorem find_least_not_less arr value :
  StrictWeakOrder comp -> SortsBy comp std_sort ->
  size arr <= max_size ->
  (exists x, x ∈ arr /\ comp x value = false) ->
  exists layout p y,
    eytzinger_array std_sort uninit arr = Some layout /\
    size layout = size arr /\
    find comp layout value = Some p /\
    0 <= p < size layout /\
    at_ layout p = Some y /\
    comp y value = false /\
    (forall x, x ∈ layout -> comp x value = false -> comp x y = false) /\
    (forall l1 a b l2,
       std_sort arr = l1 ++ a :: b :: l2 ->
       comp a value = true -> comp value b = true ->
       equivalent comp y b).
Proof.
  intros swo sorts Hmax (x0 & Hx0 & Hx0v).
  destruct (eytzinger_array_built comp std_sort uninit sorts arr Hmax)
    as (layout & Hbuilt & Hsz & Hin & Hperm).
  pose proof (sort_sorted _ _ sorts arr) as Hsort.
  destruct (find_hit comp swo layout (std_sort arr) value)
    as (k' & path & c & _ & _ & _ & _ & _ & Hfind & Hrange & y & Hy & Hyv & Hleast);
    [done|done|done|lia| |].
  { exists x0. split; [|done]. by rewrite Hperm, (sort_perm _ _ sorts). }
  exists layout, (c - 1), y. split_and!; try done; try lia.
  intros l1 a b l2 Hsorted Hav Hvb.
  assert (Hbv : comp b value = false) by (by apply swo_asym).
  assert (Hb : b ∈ layout).
  { rewrite Hperm, Hsorted, elem_of_app, !elem_of_cons. auto. }
  split; [|by apply Hleast].
  assert (Hyin : y ∈ std_sort arr) by (rewrite <- Hperm; by eapply at_elem_of).
  rewrite Hsorted in Hsort, Hyin.
  apply elem_of_app in Hyin as [Hyin|Hyin].
  { exfalso. assert (Hya : not_greater comp y a).
    { eapply (StronglySorted_app_1_elem_of _ _ _ _ _ Hsort); [done|]. apply elem_of_cons; auto. }
    rewrite (not_greater_below comp swo a y value Hya Hav) in Hyv. done. }
  apply elem_of_cons in Hyin as [->|Hyin].
  { exfalso. congruence. }
  apply elem_of_cons in Hyin as [->|Hyin]; [apply (swo_irrefl _ swo)|].
  apply StronglySorted_app_1_r, StronglySorted_cons in Hsort as [_ Hsort].
  apply StronglySorted_cons in Hsort as [Hall _].
  rewrite Forall_forall in Hall. by apply Hall.
Qed.

(** C4 (amended).  For a non-empty container and a target strictly smaller
    than every stored element, the corrected index is not 0 but the
    leftmost node of the tree, [2 ^ floor(log2 N)], and [find] returns the
    position of a smallest stored element, not the end position. *)
Theorem find_below_all arr value :
  StrictWeakOrder comp -> SortsBy comp std_sort ->
  size arr <= max_size ->
  arr <> [] ->
  (forall x, x ∈ arr -> comp value x = true) ->
  exists layout c,
    eytzinger_array std_sort uninit arr = Some layout /\
    size layout = size arr /\
    corrected_index comp layout value = Some c /\
    c = 2 ^ Z.log2 (size arr) /\
    find comp layout value = Some (c - 1) /\
    0 <= c - 1 < size layout /\
    c - 1 <> end_ layout /\
    minimum_at comp layout (c - 1).
Proof.
  intros swo sorts Hmax Hne Hall.
  destruct (eytzinger_array_built comp std_sort uninit sorts arr Hmax)
    as (layout & Hbuilt & Hsz & Hin & Hperm).
  assert (Hall' : forall x, x ∈ layout -> comp x value = false).
  { intros x Hx. apply (swo_asym comp swo), Hall.
    by rewrite <- (sort_perm _ _ sorts), <- Hperm. }
  destruct arr as [|x0 arr0]; [done|].
  assert (Hx0 : x0 ∈ layout).
  { rewrite Hperm, (sort_perm _ _ sorts). by left. }
  destruct (find_hit comp swo layout (std_sort (x0 :: arr0)) value)
    as (k' & path & c & _ & _ & Hcand & Hw & Hcorr & Hfind & Hrange & Hlb);
    [done|apply (sort_sorted _ _ sorts)|done|lia|exists x0; auto|].
  exists layout, c. split_and!; try done; try lia.
  - destruct (Walk_all_left comp layout value 1 k' path Hw Hall' 0) as (d & Hk' & Hc).
    destruct (Walk_exit_bound comp layout value 1 k' path Hw) as [Hexit _]; [lia|].
    rewrite Hcand in Hc. destruct d as [|d]; [lia|].
    rewrite pow2_S in Hk'. rewrite <- Hsz.
    rewrite (Z.log2_unique (size layout) (Z.of_nat d)); [lia|lia|].
    rewrite Z.pow_succ_r by lia. lia.
  - unfold end_. lia.
  - destruct Hlb as (y & Hy & _ & Hleast). exists y. split; [done|].
    intros x Hx. apply Hleast; [done|]. by apply Hall'.
Qed.

(** C8 (amended).  The buffer read in array order is not the sorted input
    but its image under the Eytzinger mapping: for every rank [p], the
    [p]-th element of the sorted input is stored at position [t - 1], where
    [t] is the [p]-th tree index of the in-order enumeration of [1 .. N];
    the buffer is a permutation of the sorted input. *)
Theorem layout_positions arr :
  SortsBy comp std_sort ->
  size arr <= max_size ->
  exists layout,
    eytzinger_array std_sort uninit arr = Some layout /\
    size layout = size arr /\
    inorder_indices (size arr) ≡ₚ seqZ 1 (size arr) /\
    (forall (p : nat) t,
       inorder_indices (size arr) !! p = Some t ->
       at_ layout (t - 1) = std_sort arr !! p) /\
    layout ≡ₚ std_sort arr.
Proof.
  intros sorts Hmax.
  destruct (make_eytzinger_spec comp std_sort uninit sorts arr Hmax)
    as (layout & Hbuilt & Hsz & Hpt).
  exists layout. split_and!; [done|done| |done|].
  - apply inorder_indices_Permutation.
  - by apply (make_eytzinger_InOrder comp std_sort uninit sorts).
Qed.

(** C9.  Every buffer access of [find]'s descent loop uses an index
    [k - 1] with [1 <= k <= N]: no read falls outside [[0, N)], for any
    buffer content, any target and any size, [N = 0] included (no read at
    all). *)
Theorem find_reads_in_range (a : list T) value :
  size a <= max_size ->
  exists k' path,
    find_loop comp depth_budget a value 1 = Some (k', path) /\
    Forall (fun p => 1 <= p.1 <= size a) path /\
    Forall (fun r => 0 <= r < size a) (reads path) /\
    (size a = 0 -> path = []).
Proof.
  intros Hmax.
  destruct (find_loop_walk comp a value tree_depth 1) as (k' & path & Hrun & Hw); [lia| |done|].
  { pose proof max_size_depth. lia. }
  pose proof (Walk_nodes comp a value 1 k' path Hw) as Hnodes.
  exists k', path. split_and!; [done|done| |].
  - unfold reads. apply Forall_fmap. eapply Forall_impl; [exact Hnodes|].
    intros [k b] Hk. simpl in Hk. simpl. rewrite wrap_small; [lia|].
    unfold max_size in Hmax. lia.
  - intros H0. destruct Hnodes as [|[k b] path' Hk _]; [done|]. simpl in Hk. lia.
Qed.

(** C10 (amended).  Two inputs that are permutations of each other, and in
    which values equivalent under the comparator are equal (as in every
    input when the comparator is a strict total order), are constructed
    into identical layouts: the layout then depends only on the multiset
    of input values. *)
Theorem layout_deterministic arr1 arr2 :
  SortsBy comp std_sort ->
  arr1 ≡ₚ arr2 ->
  (forall x y, x ∈ arr1 -> y ∈ arr1 -> equivalent comp x y -> x = y) ->
  eytzinger_array std_sort uninit arr1 = eytzinger_array std_sort uninit arr2.
Proof.
  intros sorts Hperm Hties.
  assert (Hsame : std_sort arr1 = std_sort arr2).
  { apply (StronglySorted_unique_strong (not_greater comp)).
    - intros x y Hx Hy Hxy Hyx.
      rewrite (sort_perm _ _ sorts) in Hx.
      rewrite (sort_perm _ _ sorts), <- Hperm in Hy.
      by apply Hties.
    - apply (sort_sorted _ _ sorts).
    - apply (sort_sorted _ _ sorts).
    - by rewrite !(sort_perm _ _ sorts). }
  unfold eytzinger_array, make_eytzinger. by rewrite Hsame.
Qed.

End Claims.

(** ** The search miss *)

Section Miss.
Context {T : Type} (comp : T -> T -> bool).
Context (std_sort : list T -> list T) (uninit : T).
Implicit Types (arr a : list T) (value : T).

(** A target greater than every stored element (any target, for the empty
    container) is a miss: the corrected index is 0 and [find] returns
    [cbegin() - 1]. *)
Lemma find_above_all arr value :
  StrictWeakOrder comp -> SortsBy comp std_sort ->
  size arr < 2 ^ 62 - 1 ->
  (forall x, x ∈ arr -> comp x value = true) ->
  exists layout,
    eytzinger_array std_sort uninit arr = Some layout /\
    corrected_index comp layout value = Some 0 /\
    find comp layout value = Some (-1).
Proof.
  intros swo sorts Hmax Hall.
  assert (Hmax' : size arr <= max_size) by (unfold max_size; lia).
  destruct (eytzinger_array_built comp std_sort uninit sorts arr Hmax')
    as (layout & Hbuilt & Hsz & Hin & Hperm).
  destruct (find_loop_search_tree comp swo layout (std_sort arr) value)
    as (k' & path & pre & post & Hrun & Hw & Heq & _ & Hpost & Hc);
    [done|apply (sort_sorted _ _ sorts)|lia|].
  destruct post as [|y post]; cycle 1.
  { exfalso. apply Forall_cons in Hpost as [Hy _].
    rewrite Hall in Hy; [done|].
    rewrite <- (sort_perm _ _ sorts arr), Heq, elem_of_app, elem_of_cons. auto. }
  simpl in Hc.
  assert (Hcorr : correct k' = Some 0).
  { apply (Walk_correct_miss comp layout value k' path); [done|lia|done]. }
  exists layout. unfold find, corrected_index. rewrite Hrun. cbn [mbind option_bind].
  rewrite Hcorr. done.
Qed.

(** C5 (what the code does).  Whenever the corrected index is 0, [find]
    returns [cbegin() + 0 - 1], the position one before the first element,
    and not the end position [cend()]. *)
Theorem find_miss_before_begin a value :
  corrected_index comp a value = Some 0 ->
  find comp a value = Some (begin_ a - 1) /\
  find comp a value <> Some (end_ a).
Proof.
  intros Hc. unfold find. rewrite Hc. cbn [mbind option_bind].
  split; [done|]. unfold begin_, end_, size. intros [= Heq]. lia.
Qed.

End Miss.

(** * Concrete containers *)

(** C7 (amended).  The input [{5, 3, 1, 4, 2}] with the default ascending
    comparator is laid out as [1:4, 2:2, 3:5, 4:1, 5:3], whatever
    [std::sort] implementation is used and whatever the fresh result array
    contained. *)
Theorem layout_example (std_sort : list Z -> list Z) (uninit : Z) :
  SortsBy Z.ltb std_sort ->
  eytzinger_array std_sort uninit [5; 3; 1; 4; 2] = Some [4; 2; 5; 1; 3].
Proof.
  intros sorts.
  assert (Hsorted : std_sort [5; 3; 1; 4; 2] = [1; 2; 3; 4; 5]).
  { apply (StronglySorted_unique_strong (not_greater Z.ltb)).
    - intros x y _ _ ?%Z.ltb_ge ?%Z.ltb_ge. lia.
    - apply (sort_sorted _ _ sorts).
    - change [1; 2; 3; 4; 5] with (sortZ [5; 3; 1; 4; 2]).
      apply (sort_sorted _ _ sortZ_SortsBy).
    - rewrite (sort_perm _ _ sorts).
      change [1; 2; 3; 4; 5] with (sortZ [5; 3; 1; 4; 2]).
      symmetry. apply (sort_perm _ _ sortZ_SortsBy). }
  unfold eytzinger_array, make_eytzinger. rewrite Hsorted. by vm_compute.
Qed.

Lemma layout_example_witness : layoutZ [5; 3; 1; 4; 2] = Some [4; 2; 5; 1; 3].
Proof. apply (layout_example sortZ 0 sortZ_SortsBy). Defined.

(** On that container, [find 5] returns the position that holds 5. *)
Lemma find_example :
  findZ [4; 2; 5; 1; 3] 5 = Some 2 /\ at_ [4; 2; 5; 1; 3] 2 = Some 5.
Proof. by vm_compute. Qed.

(** C7, as stated, fails: the layout is not [1:3, 2:2, 3:5, 4:1, 5:4], and
    the distance of [find 5] from [begin()] is 2, not 4. *)
Lemma layout_example_counterexample :
  ~ (exists layout,
       layoutZ [5; 3; 1; 4; 2] = Some layout /\
       layout = [3; 2; 5; 1; 4] /\
       findZ layout 5 = Some (begin_ layout + 4)).
Proof. intros (layout & Hl & -> & _). vm_compute in Hl. done. Qed.

(** C1, as stated, fails: in the container built from [{1, 3}] the target
    2 lies between the adjacent elements 1 and 3; [find 2] returns the
    position of 3, which is not a stored element [<= 2]. *)
Lemma find_floor_counterexample :
  sortZ [1; 3] = [1; 3] /\
  ~ (exists layout p,
       layoutZ [1; 3] = Some layout /\
       findZ layout 2 = Some p /\
       floor_at Z.ltb layout 2 p).
Proof.
  split; [done|]. intros (layout & p & Hl & Hp & y & Hy & Hle & _).
  vm_compute in Hl. injection Hl as <-.
  vm_compute in Hp. injection Hp as <-.
  vm_compute in Hy. injection Hy as <-. done.
Qed.

(** C4, as stated, fails: in the container built from [{1, 2, 3}] the
    target 0 is smaller than every element, yet the corrected index is 2
    and [find 0] returns position 1 (holding 1), not the end position. *)
Lemma find_below_all_counterexample :
  (forall x, x ∈ [1; 2; 3] -> Z.ltb 0 x = true) /\
  ~ (exists layout,
       layoutZ [1; 2; 3] = Some layout /\
       corrected_index Z.ltb layout 0 = Some 0 /\
       findZ layout 0 = Some (end_ layout)).
Proof.
  split.
  - intros x Hx. apply Z.ltb_lt. repeat (apply elem_of_cons in Hx as [->|Hx]; [lia|]).
    by apply elem_of_nil in Hx.
  - intros (layout & Hl & Hc & _).
    vm_compute in Hl. injection Hl as <-. vm_compute in Hc. done.
Qed.

(** C10, as stated, fails for a comparator with ties.  The records
    [(1, 0)] and [(1, 1)] have equal keys; the comparator answers [false]
    on every pair, so the sort moves nothing (any sort that only compares
    does the same moves on both inputs), and the two orders of the same two
    records are laid out differently. *)
Lemma layout_ties_counterexample :
  StrictWeakOrder key_less /\
  SortsBy key_less (insertion_sort key_less) /\
  [(1, 0); (1, 1)] ≡ₚ [(1, 1); (1, 0)] /\
  eytzinger_array (insertion_sort key_less) (0, 0) [(1, 0); (1, 1)]
    = Some [(1, 1); (1, 0)] /\
  eytzinger_array (insertion_sort key_less) (0, 0) [(1, 1); (1, 0)]
    = Some [(1, 0); (1, 1)] /\
  eytzinger_array (insertion_sort key_less) (0, 0) [(1, 0); (1, 1)]
    <> eytzinger_array (insertion_sort key_less) (0, 0) [(1, 1); (1, 0)].
Proof.
  split_and!.
  - apply key_less_swo.
  - apply insertion_sort_SortsBy, key_less_swo.
  - apply perm_swap.
  - by vm_compute.
  - by vm_compute.
  - by vm_compute.
Qed.

(** C8, as stated, fails: the buffer built from [{1, 2, 3}] reads
    [2, 1, 3] in array order, not the sorted input [1, 2, 3]. *)
Lemma level_order_counterexample :
  ~ (exists layout,
       layoutZ [1; 2; 3] = Some layout /\ layout = sortZ [1; 2; 3]).
Proof. intros (layout & Hl & ->). vm_compute in Hl. done. Qed.

(** ** Instances of the general theorems *)

Lemma find_present_witness :
  exists layout p y,
    eytzinger_array sortZ 0 [5; 3; 1; 4; 2] = Some layout /\
    size layout = size [5; 3; 1; 4; 2] /\
    find Z.ltb layout 3 = Some p /\
    0 <= p < size layout /\
    at_ layout p = Some y /\
    Z.ltb y 3 = false /\ Z.ltb 3 y = false.
Proof.
  apply (find_present Z.ltb sortZ 0 [5; 3; 1; 4; 2] 3 Z_ltb_swo sortZ_SortsBy).
  - by vm_compute.
  - repeat constructor.
Defined.

Lemma layout_inorder_sorted_witness :
  exists layout,
    eytzinger_array sortZ 0 [5; 3; 1; 4; 2] = Some layout /\
    size layout = size [5; 3; 1; 4; 2] /\
    InOrder layout 1 (sortZ [5; 3; 1; 4; 2]) /\
    inorder_traversal layout = sortZ [5; 3; 1; 4; 2] /\
    StronglySorted (not_greater Z.ltb) (sortZ [5; 3; 1; 4; 2]) /\
    sortZ [5; 3; 1; 4; 2] ≡ₚ [5; 3; 1; 4; 2] /\
    layout ≡ₚ [5; 3; 1; 4; 2].
Proof.
  apply (layout_inorder_sorted Z.ltb sortZ 0 [5; 3; 1; 4; 2] sortZ_SortsBy).
  by vm_compute.
Defined.

Lemma find_lower_bound_witness :
  exists layout k' path c,
    eytzinger_array sortZ 0 [10; 30; 20] = Some layout /\
    size layout = size [10; 30; 20] /\
    find_loop Z.ltb depth_budget layout 15 1 = Some (k', path) /\
    last_left path = Some c /\
    corrected_index Z.ltb layout 15 = Some c /\
    find Z.ltb layout 15 = Some (c - 1) /\
    0 <= c - 1 < size layout /\
    lower_bound_at Z.ltb layout 15 (c - 1).
Proof.
  apply (find_lower_bound Z.ltb sortZ 0 [10; 30; 20] 15 Z_ltb_swo sortZ_SortsBy).
  - by vm_compute.
  - exists 30. split; [repeat constructor|reflexivity].
Defined.

Lemma find_least_not_less_witness :
  exists layout p y,
    eytzinger_array sortZ 0 [3; 1] = Some layout /\
    size layout = size [3; 1] /\
    find Z.ltb layout 2 = Some p /\
    0 <= p < size layout /\
    at_ layout p = Some y /\
    Z.ltb y 2 = false /\
    (forall x, x ∈ layout -> Z.ltb x 2 = false -> Z.ltb x y = false) /\
    (forall l1 a b l2,
       sortZ [3; 1] = l1 ++ a :: b :: l2 ->
       Z.ltb a 2 = true -> Z.ltb 2 b = true ->
       equivalent Z.ltb y b).
Proof.
  apply (find_least_not_less Z.ltb sortZ 0 [3; 1] 2 Z_ltb_swo sortZ_SortsBy).
  - by vm_compute.
  - exists 3. split; [repeat constructor|reflexivity].
Defined.

Lemma find_below_all_witness :
  exists layout c,
    eytzinger_array sortZ 0 [1; 2; 3] = Some layout /\
    size layout = size [1; 2; 3] /\
    corrected_index Z.ltb layout 0 = Some c /\
    c = 2 ^ Z.log2 (size [1; 2; 3]) /\
    find Z.ltb layout 0 = Some (c - 1) /\
    0 <= c - 1 < size layout /\
    c - 1 <> end_ layout /\
    minimum_at Z.ltb layout (c - 1).
Proof.
  apply (find_below_all Z.ltb sortZ 0 [1; 2; 3] 0 Z_ltb_swo sortZ_SortsBy).
  - by vm_compute.
  - discriminate.
  - intros x Hx. apply Z.ltb_lt. repeat (apply elem_of_cons in Hx as [->|Hx]; [lia|]).
    by apply elem_of_nil in Hx.
Defined.

Lemma layout_positions_witness :
  exists layout,
    eytzinger_array sortZ 0 [5; 3; 1; 4; 2] = Some layout /\
    size layout = size [5; 3; 1; 4; 2] /\
    inorder_indices (size [5; 3; 1; 4; 2]) ≡ₚ seqZ 1 (size [5; 3; 1; 4; 2]) /\
    (forall (p : nat) t,
       inorder_indices (size [5; 3; 1; 4; 2]) !! p = Some t ->
       at_ layout (t - 1) = sortZ [5; 3; 1; 4; 2] !! p) /\
    layout ≡ₚ sortZ [5; 3; 1; 4; 2].
Proof.
  apply (layout_positions Z.ltb sortZ 0 [5; 3; 1; 4; 2] sortZ_SortsBy).
  by vm_compute.
Defined.

Lemma find_reads_in_range_witness :
  exists k' path,
    find_loop Z.ltb depth_budget [4; 2; 5; 1; 3] 5 1 = Some (k', path) /\
    Forall (fun p => 1 <= p.1 <= size [4; 2; 5; 1; 3]) path /\
    Forall (fun r => 0 <= r < size [4; 2; 5; 1; 3]) (reads path) /\
    (size [4; 2; 5; 1; 3] = 0 -> path = []).
Proof.
  apply (find_reads_in_range Z.ltb [4; 2; 5; 1; 3] 5).
  by vm_compute.
Defined.

Lemma layout_deterministic_witness :
  [3; 1; 2] ≡ₚ [1; 3; 2] /\
  eytzinger_array sortZ 0 [3; 1; 2] = eytzinger_array sortZ 0 [1; 3; 2].
Proof.
  split; [apply perm_swap|].
  apply (layout_deterministic Z.ltb sortZ 0 [3; 1; 2] [1; 3; 2] sortZ_SortsBy).
  - apply perm_swap.
  - intros x y _ _ [?%Z.ltb_ge ?%Z.ltb_ge]. lia.
Defined.

Lemma find_miss_before_begin_witness :
  corrected_index Z.ltb [2; 1; 3] 4 = Some 0 /\
  find Z.ltb [2; 1; 3] 4 = Some (begin_ [2; 1; 3] - 1) /\
  find Z.ltb [2; 1; 3] 4 <> Some (end_ [2; 1; 3]).
Proof.
  split; [reflexivity|].
  apply (find_miss_before_begin Z.ltb [2; 1; 3] 4). reflexivity.
Defined.

(** * Further properties of the code *)

(** ** The correction [k >>= __builtin_ffsl(~k)] *)

Lemma odd_part_exists (b : nat) n :
  1 <= n <= Z.of_nat b -> exists c m, 0 <= c /\ 0 <= m /\ n = (2 * c + 1) * 2 ^ m.
Proof.
  revert n. induction b as [|b IH]; intros n Hn; [lia|].
  destruct (Z.Even_or_Odd n) as [[h ->]|[h ->]].
  - destruct (IH h) as (c & m & Hc & Hm & ->); [lia|].
    exists c, (m + 1). rewrite Z.pow_add_r by lia. lia.
  - exists h, 0. simpl. lia.
Qed.

(** The corrected index of a left child is its parent; the corrected index
    of a right child is that of its parent.  Hence the correction of an
    exit index undoes the last left turn and every right turn after it. *)
Theorem correct_children k :
  0 <= k < 2 ^ 62 - 1 ->
  correct (2 * k) = Some k /\ correct (2 * k + 1) = correct k.
Proof.
  intros Hk. split.
  - apply (correct_spec _ _ 0); simpl; lia.
  - destruct (odd_part_exists (Z.to_nat (k + 1)) (k + 1)) as (c & m & Hc & Hm & Heq); [lia|].
    assert (Hpos : 0 < 2 ^ m) by (apply Z.pow_pos_nonneg; lia).
    assert (m < 62).
    { apply (Z.pow_lt_mono_r_iff 2); [lia|lia|]. nia. }
    assert (H1 : correct (2 * k + 1) = Some c).
    { apply (correct_spec _ _ (m + 1)); [lia|lia|]. rewrite Z.pow_add_r by lia. lia. }
    assert (H2 : correct k = Some c).
    { apply (correct_spec _ _ m); lia. }
    congruence.
Qed.

Lemma correct_children_witness :
  correct (2 * 5) = Some 5 /\ correct (2 * 5 + 1) = correct 5.
Proof. apply (correct_children 5). by vm_compute. Defined.

(** ** The cost of a search *)

Section Cost.
Context {T : Type} (comp : T -> T -> bool).
Implicit Types (a : list T) (value : T) (path : list (Z * bool)).



End Cost.


(** ** The copy into breadth-first order *)

Section Copy.
Context {T : Type}.
Implicit Types (inp out result : list T) (i k j : Z).

Lemma breadth_first_copy_root inp out :
  size inp <= max_size ->
  size out = size inp ->
  exists result,
    breadth_first_copy depth_budget inp out 0 1 = Some (result, size inp) /\
    size result = size inp /\
    forall (p : nat) j,
      inorder_indices (size inp) !! p = Some j -> at_ result (j - 1) = inp !! p.
Proof.
  intros Hmax Hout.
  assert (Hpos : 0 <= size inp) by (unfold size; lia).
  pose proof (length_inorder_indices (size inp) Hpos) as Hidx.
  pose proof (levels_spec (size inp)) as Hlev.
  destruct (breadth_first_copy_spec (levels (size inp)) inp out 0 1)
    as (result & Hrun & Hlen & Hin & _); [lia|lia|done|done|lia| |].
  { fold (inorder_indices (size inp)). rewrite Hidx. lia. }
  assert (Hfuel : (S (levels (size inp)) <= depth_budget)%nat).
  { apply le_n_S, levels_bound. lia. }
  fold (inorder_indices (size inp)) in Hrun, Hin. rewrite Hidx in Hrun.
  exists result. rewrite (breadth_first_copy_fuel_mono _ _ _ _ _ _ _ Hfuel Hrun).
  split_and!; [done|done|].
  intros p j Hp. rewrite (Hin p j Hp). unfold at_. f_equal. lia.
Qed.

Lemma filled_unique (n : Z) (vals r1 r2 : list T) :
  size r1 = n -> size r2 = n ->
  (forall (p : nat) j, inorder_indices n !! p = Some j -> at_ r1 (j - 1) = vals !! p) ->
  (forall (p : nat) j, inorder_indices n !! p = Some j -> at_ r2 (j - 1) = vals !! p) ->
  r1 = r2.
Proof.
  intros H1 H2 Hp1 Hp2. apply list_eq. intros q.
  destruct (decide (Z.of_nat q < n)) as [Hq|Hq].
  - assert (Hin : Z.of_nat q + 1 ∈ inorder_indices n).
    { rewrite inorder_indices_Permutation, elem_of_seqZ. lia. }
    apply list_elem_of_lookup_1 in Hin as [p Hp].
    pose proof (Hp1 p _ Hp) as E1. pose proof (Hp2 p _ Hp) as E2.
    unfold at_ in E1, E2.
    replace (Z.to_nat (Z.of_nat q + 1 - 1)) with q in E1, E2 by lia. congruence.
  - unfold size in *. rewrite !lookup_ge_None_2 by lia. done.
Qed.

(** [breadth_first_copy] from the root overwrites every position of [out]:
    its result does not depend on what [out] held before, is a permutation
    of [in], and the returned counter is [N] (every input element is
    consumed exactly once); no access is out of range. *)
Theorem breadth_first_copy_overwrites inp out1 out2 :
  size inp <= max_size ->
  size out1 = size inp ->
  size out2 = size inp ->
  exists result,
    breadth_first_copy depth_budget inp out1 0 1 = Some (result, size inp) /\
    breadth_first_copy depth_budget inp out2 0 1 = Some (result, size inp) /\
    size result = size inp /\
    result ≡ₚ inp.
Proof.
  intros Hmax H1 H2.
  destruct (breadth_first_copy_root inp out1 Hmax H1) as (r1 & Hrun1 & Hsz1 & Hpt1).
  destruct (breadth_first_copy_root inp out2 Hmax H2) as (r2 & Hrun2 & Hsz2 & Hpt2).
  assert (r2 = r1) as -> by (by eapply (filled_unique (size inp) inp)).
  exists r1. split_and!; [done|done|done|].
  apply (filled_Permutation _ _ (inorder_indices (size inp))); [|symmetry|done].
  - rewrite Hsz1. apply inorder_indices_Permutation.
  - apply Nat2Z.inj. rewrite length_inorder_indices by (unfold size; lia). done.
Qed.

Lemma in_subtree_nodes (n k j : Z) :
  1 <= k -> j ∈ nodes (levels n) n k <-> j <= n /\ in_subtree k j.
Proof.
  intros Hk. rewrite elem_of_nodes by done. unfold in_subtree. split.
  - intros (Hj & d & _ & Hd). eauto.
  - intros (Hj & d & Hd). split; [done|]. exists d. split; [|done].
    pose proof (levels_spec n) as Hlev. pose proof (pow2_pos d).
    apply Nat2Z.inj_lt. apply (Z.pow_lt_mono_r_iff 2); [lia|lia|nia].
Qed.

(** The recursion contract of [breadth_first_copy] on the subtree of [k],
    entered with counter [i]: it returns the counter advanced by the number
    of nodes of the subtree, it stores elements [in[i] ..] of that range at
    the positions of the subtree, and it leaves every other position of
    [out] as it was. *)
Theorem breadth_first_copy_subtree inp out i k :
  1 <= k ->
  size inp <= max_size ->
  size out = size inp ->
  0 <= i ->
  i + subtree_size (size inp) k <= size inp ->
  exists out',
    breadth_first_copy depth_budget inp out i k
      = Some (out', i + subtree_size (size inp) k) /\
    size out' = size out /\
    (forall j, 1 <= j -> ~ in_subtree k j -> at_ out' (j - 1) = at_ out (j - 1)) /\
    (forall j, in_subtree k j -> j <= size inp ->
       exists p : nat,
         Z.of_nat p < subtree_size (size inp) k /\
         at_ out' (j - 1) = at_ inp (i + Z.of_nat p)).
Proof.
  unfold subtree_size. intros Hk Hmax Hout Hi Hlen.
  pose proof (levels_spec (size inp)) as Hlev.
  pose proof (pow2_pos (levels (size inp))) as Hpow.
  destruct (breadth_first_copy_spec (levels (size inp)) inp out i k)
    as (out' & Hrun & Hsz & Hin & Hframe); [done|nia|done|done|done|done|].
  assert (Hfuel : (S (levels (size inp)) <= depth_budget)%nat).
  { apply le_n_S, levels_bound. lia. }
  exists out'. rewrite (breadth_first_copy_fuel_mono _ _ _ _ _ _ _ Hfuel Hrun).
  split_and!; [done|congruence| |].
  - intros j Hj Hnot. apply Hframe; [done|].
    rewrite in_subtree_nodes by done. tauto.
  - intros j Hsub Hj.
    assert (Hjn : j ∈ nodes (levels (size inp)) (size inp) k).
    { rewrite in_subtree_nodes by done. done. }
    apply list_elem_of_lookup_1 in Hjn as [p Hp]. exists p. split.
    + apply lookup_lt_Some in Hp. lia.
    + by apply Hin.
Qed.

End Copy.

Lemma breadth_first_copy_overwrites_witness :
  exists result,
    breadth_first_copy depth_budget [1; 2; 3; 4; 5] [0; 0; 0; 0; 0] 0 1
      = Some (result, size [1; 2; 3; 4; 5]) /\
    breadth_first_copy depth_budget [1; 2; 3; 4; 5] [9; 8; 7; 6; 5] 0 1
      = Some (result, size [1; 2; 3; 4; 5]) /\
    size result = size [1; 2; 3; 4; 5] /\
    result ≡ₚ [1; 2; 3; 4; 5].
Proof.
  apply (breadth_first_copy_overwrites [1; 2; 3; 4; 5] [0; 0; 0; 0; 0] [9; 8; 7; 6; 5]).
  - by vm_compute.
  - reflexivity.
  - reflexivity.
Defined.

Lemma breadth_first_copy_subtree_witness :
  exists out',
    breadth_first_copy depth_budget [1; 2; 3; 4; 5] [0; 0; 0; 0; 0] 0 2
      = Some (out', 0 + subtree_size (size [1; 2; 3; 4; 5]) 2) /\
    size out' = size [0; 0; 0; 0; 0] /\
    (forall j, 1 <= j -> ~ in_subtree 2 j ->
       at_ out' (j - 1) = at_ [0; 0; 0; 0; 0] (j - 1)) /\
    (forall j, in_subtree 2 j -> j <= size [1; 2; 3; 4; 5] ->
       exists p : nat,
         Z.of_nat p < subtree_size (size [1; 2; 3; 4; 5]) 2 /\
         at_ out' (j - 1) = at_ [1; 2; 3; 4; 5] (0 + Z.of_nat p)).
Proof.
  apply (breadth_first_copy_subtree [1; 2; 3; 4; 5] [0; 0; 0; 0; 0] 0 2).
  - lia.
  - by vm_compute.
  - reflexivity.
  - lia.
  - by vm_compute.
Defined.

(** ** The layout is a search tree *)

Section SearchTree.
Context {T : Type} (comp : T -> T -> bool).
Context (std_sort : list T -> list T) (uninit : T).
Implicit Types (a arr layout vals : list T) (k j r : Z).

Lemma in_subtree_root k : 1 <= k -> in_subtree 1 k.
Proof.
  intros Hk. destruct (Z.log2_spec k) as [Hlo Hhi]; [lia|].
  pose proof (Z.log2_nonneg k).
  exists (Z.to_nat (Z.log2 k)). rewrite Z2Nat.id by done.
  rewrite Z.pow_succ_r in Hhi by done. lia.
Qed.

(** The traversal of a subtree is a segment of the traversal of any tree
    that contains it. *)
Lemma InOrder_subtree a (d : nat) r vals k :
  InOrder a r vals -> 1 <= r ->
  r * 2 ^ Z.of_nat d <= k < (r + 1) * 2 ^ Z.of_nat d ->
  k <= size a ->
  exists pre vals' post, vals = pre ++ vals' ++ post /\ InOrder a k vals'.
Proof.
  revert r vals. induction d as [|d IH]; intros r vals Hin Hr Hk Hle.
  { simpl in Hk. assert (k = r) as -> by lia.
    exists [], vals, []. by rewrite app_nil_r. }
  rewrite pow2_S in Hk. pose proof (pow2_pos d) as Hpow.
  destruct Hin as [r Hgt|r x l rr Hrange Hx Hl Hrr]; [nia|].
  destruct (decide (k < (2 * r + 1) * 2 ^ Z.of_nat d)) as [Hleft|Hright].
  - destruct (IH (2 * r) l) as (pre & vals' & post & -> & Hin'); [done|lia|nia|done|].
    exists pre, vals', (post ++ x :: rr). split; [|done].
    by rewrite <- !app_assoc.
  - destruct (IH (2 * r + 1) rr) as (pre & vals' & post & -> & Hin'); [done|lia|nia|done|].
    exists (l ++ x :: pre), vals', post. split; [|done].
    by rewrite <- !app_assoc.
Qed.

Lemma InOrder_elem_of a r vals j y :
  InOrder a r vals -> 1 <= r -> in_subtree r j ->
  at_ a (j - 1) = Some y -> y ∈ vals.
Proof.
  intros Hin Hr [d Hd] Hy.
  assert (Hj : 1 <= j) by (pose proof (pow2_pos d); nia).
  assert (Hle : j <= size a).
  { apply at_elem_of in Hy as Hy'. unfold at_ in Hy. apply lookup_lt_Some in Hy.
    unfold size. lia. }
  destruct (InOrder_subtree a d r vals j Hin Hr Hd Hle) as (pre & vals' & post & -> & Hin').
  destruct (InOrder_node_inv a j vals' y Hin' Hle Hy) as (l & rr & -> & _).
  rewrite !elem_of_app, elem_of_cons. auto.
Qed.

(** The constructed layout is a binary search tree in implicit form: no
    element stored in the left subtree of a node (rooted at [2k]) is
    greater than the node's element, and no element stored in its right
    subtree (rooted at [2k+1]) is less. *)
Theorem layout_search_tree arr :
  SortsBy comp std_sort ->
  size arr <= max_size ->
  exists layout,
    eytzinger_array std_sort uninit arr = Some layout /\
    forall k j x y,
      1 <= k ->
      at_ layout (k - 1) = Some x ->
      at_ layout (j - 1) = Some y ->
      (in_subtree (2 * k) j -> comp x y = false) /\
      (in_subtree (2 * k + 1) j -> comp y x = false).
Proof.
  intros sorts Hmax.
  destruct (eytzinger_array_built comp std_sort uninit sorts arr Hmax)
    as (layout & Hbuilt & Hsz & Hin & Hperm).
  pose proof (sort_sorted _ _ sorts arr) as Hsort.
  exists layout. split; [done|]. intros k j x y Hk Hx Hy.
  assert (Hle : k <= size layout).
  { unfold at_ in Hx. apply lookup_lt_Some in Hx. unfold size. lia. }
  destruct (in_subtree_root k Hk) as [d Hd].
  destruct (InOrder_subtree layout d 1 _ k Hin ltac:(lia) Hd Hle)
    as (pre & vals & post & Heq & Hink).
  destruct (InOrder_node_inv layout k vals x Hink Hle Hx) as (l & rr & -> & Hl & Hrr).
  rewrite Heq in Hsort.
  apply StronglySorted_app_1_r, StronglySorted_app_1_l in Hsort.
  split; intros Hsub.
  - pose proof (InOrder_elem_of layout (2 * k) l j y Hl ltac:(lia) Hsub Hy) as Hyl.
    apply (StronglySorted_app_1_elem_of _ _ _ _ _ Hsort Hyl). by left.
  - pose proof (InOrder_elem_of layout (2 * k + 1) rr j y Hrr ltac:(lia) Hsub Hy) as Hyr.
    apply StronglySorted_app_1_r, StronglySorted_cons in Hsort as [Hall _].
    rewrite Forall_forall in Hall. by apply Hall.
Qed.

End SearchTree.

Lemma layout_search_tree_witness :
  exists layout,
    eytzinger_array sortZ 0 [5; 3; 1; 4; 2] = Some layout /\
    forall k j x y,
      1 <= k ->
      at_ layout (k - 1) = Some x ->
      at_ layout (j - 1) = Some y ->
      (in_subtree (2 * k) j -> Z.ltb x y = false) /\
      (in_subtree (2 * k + 1) j -> Z.ltb y x = false).
Proof.
  apply (layout_search_tree Z.ltb sortZ 0 [5; 3; 1; 4; 2] sortZ_SortsBy).
  by vm_compute.
Defined.

(** ** What [find] returns, for every target *)

Section FindTotal.
Context {T : Type} (comp : T -> T -> bool).
Context (std_sort : list T -> list T) (uninit : T).
Hypothesis swo : StrictWeakOrder comp.
Hypothesis sorts : SortsBy comp std_sort.
Implicit Types (arr layout : list T) (value : T).

(** Either every element is less than the target, and [find] misses, or
    [find] hits the lower bound. *)
Lemma find_cases arr value :
  size arr < 2 ^ 62 - 1 ->
  exists layout,
    eytzinger_array std_sort uninit arr = Some layout /\
    layout ≡ₚ arr /\
    ((forall x, x ∈ arr -> comp x value = true) /\
       find comp layout value = Some (-1)
     \/
     exists p,
       (exists x, x ∈ arr /\ comp x value = false) /\
       find comp layout value = Some p /\
       0 <= p < size layout /\
       lower_bound_at comp layout value p).
Proof.
  intros Hmax.
  assert (Hmax' : size arr <= max_size) by (unfold max_size; lia).
  destruct (eytzinger_array_built comp std_sort uninit sorts arr Hmax')
    as (layout & Hbuilt & Hsz & Hin & Hperm).
  assert (Hperm' : layout ≡ₚ arr) by (by rewrite Hperm, (sort_perm _ _ sorts)).
  exists layout. split_and!; [done|done|].
  destruct (decide (Forall (fun x => comp x value = true) arr)) as [Hall|Hnot].
  - left. rewrite Forall_forall in Hall. split; [done|].
    destruct (find_above_all comp std_sort uninit arr value swo sorts Hmax Hall)
      as (layout' & Hbuilt' & _ & Hfind).
    congruence.
  - right. apply not_Forall_Exists, Exists_exists in Hnot as (x & Hx & Hxv).
    simpl in Hxv. apply not_true_is_false in Hxv.
    destruct (find_hit comp swo layout (std_sort arr) value)
      as (k' & path & c & _ & _ & _ & _ & _ & Hfind & Hrange & Hlb);
      [done|apply (sort_sorted _ _ sorts)|done|lia| |].
    { exists x. by rewrite Hperm'. }
    exists (c - 1). split_and!; try done; try lia.
    + by exists x.
    + apply _.
Qed.


(** Exact-match test.  The target is present (some stored element is
    equivalent to it) exactly when [find] returns a position at or after
    [begin()] whose element is not greater than the target. *)
Theorem find_membership arr value :
  size arr < 2 ^ 62 - 1 ->
  exists layout p,
    eytzinger_array std_sort uninit arr = Some layout /\
    find comp layout value = Some p /\
    ((exists x, x ∈ arr /\ equivalent comp x value) <->
     (0 <= p /\ exists y, at_ layout p = Some y /\ comp value y = false)).
Proof.
  intros Hmax.
  destruct (find_cases arr value Hmax)
    as (layout & Hbuilt & Hperm & [[Hall Hfind]|(p & _ & Hfind & Hrange & Hlb)]).
  - exists layout, (-1). split_and!; [done|done|]. split.
    + intros (x & Hx & Hxv & _). rewrite (Hall x Hx) in Hxv. done.
    + intros [? _]. lia.
  - exists layout, p. split_and!; [done|done|].
    destruct Hlb as (y & Hy & Hyv & Hleast). split.
    + intros (x & Hx & Hxv & Hvx). split; [lia|]. exists y. split; [done|].
      destruct (comp value y) eqn:Hvy; [|done].
      destruct (swo_cotrans comp swo value x y Hvy) as [E|E]; [congruence|].
      rewrite Hleast in E; [done| |done]. by rewrite Hperm.
    + intros (_ & y' & Hy' & Hvy). assert (y' = y) as -> by congruence.
      exists y. split; [|done]. rewrite <- Hperm. by eapply at_elem_of.
Qed.

End FindTotal.

(** ** Constructing again *)

Section Again.
Context {T : Type} (comp : T -> T -> bool).
Context (std_sort : list T -> list T) (uninit : T).
Implicit Types (arr layout : list T).

(** Construction is idempotent: a container constructed from the buffer of
    a constructed container holds the same buffer, when the input has no
    two distinct values that are equivalent under the comparator. *)
Theorem eytzinger_array_idempotent arr :
  SortsBy comp std_sort ->
  size arr <= max_size ->
  (forall x y, x ∈ arr -> y ∈ arr -> equivalent comp x y -> x = y) ->
  exists layout,
    eytzinger_array std_sort uninit arr = Some layout /\
    eytzinger_array std_sort uninit layout = Some layout.
Proof.
  intros sorts Hmax Hties.
  destruct (eytzinger_array_built comp std_sort uninit sorts arr Hmax)
    as (layout & Hbuilt & Hsz & Hin & Hperm).
  exists layout. split; [done|]. rewrite <- Hbuilt.
  assert (Hsame : std_sort layout = std_sort arr).
  { apply (StronglySorted_unique_strong (not_greater comp)).
    - intros x y Hx Hy Hxy Hyx.
      rewrite (sort_perm _ _ sorts), Hperm, (sort_perm _ _ sorts) in Hx.
      rewrite (sort_perm _ _ sorts) in Hy.
      by apply Hties.
    - apply (sort_sorted _ _ sorts).
    - apply (sort_sorted _ _ sorts).
    - by rewrite (sort_perm _ _ sorts), Hperm. }
  unfold eytzinger_array, make_eytzinger. by rewrite Hsame.
Qed.

End Again.


Lemma find_membership_witness :
  exists layout p,
    eytzinger_array sortZ 0 [10; 30; 20] = Some layout /\
    find Z.ltb layout 15 = Some p /\
    ((exists x, x ∈ [10; 30; 20] /\ equivalent Z.ltb x 15) <->
     (0 <= p /\ exists y, at_ layout p = Some y /\ Z.ltb 15 y = false)).
Proof.
  apply (find_membership Z.ltb sortZ 0 Z_ltb_swo sortZ_SortsBy [10; 30; 20] 15).
  by vm_compute.
Defined.

Lemma eytzinger_array_idempotent_witness :
  exists layout,
    eytzinger_array sortZ 0 [5; 3; 1; 4; 2] = Some layout /\
    eytzinger_array sortZ 0 layout = Some layout.
Proof.
  apply (eytzinger_array_idempotent Z.ltb sortZ 0 [5; 3; 1; 4; 2] sortZ_SortsBy).
  - by vm_compute.
  - intros x y _ _ [?%Z.ltb_ge ?%Z.ltb_ge]. lia.
Defined.

(** ** The rank of the node that [find] returns *)

Lemma StronglySorted_lookup {A} (R : relation A) (l : list A) (i j : nat) x y :
  StronglySorted R l -> l !! i = Some x -> l !! j = Some y -> (i < j)%nat -> R x y.
Proof.
  intros Hl. revert i j. induction Hl as [|z l Hl IH Hz]; intros i j Hi Hj Hij; [done|].
  destruct j as [|j]; [lia|]. simpl in Hj. destruct i as [|i]; simpl in Hi.
  - injection Hi as ->. rewrite Forall_forall in Hz.
    apply Hz. by eapply list_elem_of_lookup_2.
  - apply (IH i j); [done|done|lia].
Qed.

Lemma nodes_outside (f : nat) (n k : Z) : n < k -> nodes f n k = [].
Proof. intros Hk. destruct f; [done|]. simpl. destruct (decide (k <= n)); [lia|done]. Qed.

Lemma length_filter_prefix {A} (P : A -> Prop) `{!forall x, Decision (P x)}
    (l : list A) (m : nat) :
  (m <= length l)%nat ->
  (forall (p : nat) x, l !! p = Some x -> (p < m)%nat -> P x) ->
  (forall (p : nat) x, l !! p = Some x -> (m <= p)%nat -> ~ P x) ->
  length (filter P l) = m.
Proof.
  revert m. induction l as [|x l IH]; intros m Hm Hlow Hhigh.
  - simpl in Hm. destruct m; [done|lia].
  - destruct m as [|m].
    + rewrite filter_cons_False by (apply (Hhigh 0%nat); [done|lia]).
      apply IH; [lia| |].
      * intros p y _ Hp. lia.
      * intros p y Hy _. apply (Hhigh (S p)); [done|lia].
    + rewrite filter_cons_True by (apply (Hlow 0%nat); [done|lia]).
      simpl. f_equal. apply IH; [simpl in Hm; lia| |].
      * intros p y Hy Hp. apply (Hlow (S p)); [done|lia].
      * intros p y Hy Hp. apply (Hhigh (S p)); [done|lia].
Qed.

Section Rank.
Context {T : Type} (comp : T -> T -> bool).
Hypothesis swo : StrictWeakOrder comp.

(** A buffer [a] filled along the enumeration [idx] with the sorted
    sequence [sorted]. *)
Variables (a sorted : list T) (idx : list Z) (value : T).
Hypothesis sorted_sorted : StronglySorted (not_greater comp) sorted.
Hypothesis filled :
  forall (p : nat) j, idx !! p = Some j -> at_ a (j - 1) = sorted !! p.
Hypothesis length_sorted : length sorted = length idx.

Lemma filled_value (p : nat) j :
  idx !! p = Some j -> exists x, at_ a (j - 1) = Some x /\ sorted !! p = Some x.
Proof.
  intros Hp. destruct (lookup_lt_is_Some_2 sorted p) as [x Hx].
  { apply lookup_lt_Some in Hp. lia. }
  exists x. split; [|done]. by rewrite (filled p j Hp).
Qed.

Lemma filled_order (p q : nat) j1 j2 x1 x2 :
  idx !! p = Some j1 -> idx !! q = Some j2 -> (p < q)%nat ->
  at_ a (j1 - 1) = Some x1 -> at_ a (j2 - 1) = Some x2 ->
  not_greater comp x1 x2.
Proof.
  intros Hp Hq Hpq H1 H2.
  rewrite (filled p j1 Hp) in H1. rewrite (filled q j2 Hq) in H2.
  by apply (StronglySorted_lookup _ sorted p q).
Qed.

(** Invariant of the descent on tree indices: the nodes before the subtree
    still to be searched hold elements less than the target, the nodes
    after it hold elements that are not, and the candidate is the first of
    the latter. *)
Lemma Walk_rank k k' path :
  Walk comp a value k k' path ->
  forall (f : nat) pre post c,
    1 <= k ->
    size a < k * 2 ^ Z.of_nat f ->
    idx = pre ++ nodes f (size a) k ++ post ->
    Forall (fun j => exists x, at_ a (j - 1) = Some x /\ comp x value = true) pre ->
    Forall (fun j => exists x, at_ a (j - 1) = Some x /\ comp x value = false) post ->
    candidate_node c post ->
    exists pre' post',
      idx = pre' ++ post' /\
      Forall (fun j => exists x, at_ a (j - 1) = Some x /\ comp x value = true) pre' /\
      Forall (fun j => exists x, at_ a (j - 1) = Some x /\ comp x value = false) post' /\
      candidate_node (candidate c path) post'.
Proof.
  induction 1 as [k Hk|k x k' path Hk Hx Hw IH];
    intros f pre post c Hk1 Hf Hidx Hpre Hpost Hc.
  - rewrite nodes_outside in Hidx by done. exists pre, post. done.
  - destruct f as [|f]; [simpl in Hf; lia|].
    rewrite pow2_S in Hf. pose proof (pow2_pos f) as Hpow.
    cbn [nodes] in Hidx. destruct (decide (k <= size a)); [|lia].
    set (L := nodes f (size a) (2 * k)) in *.
    set (R := nodes f (size a) (2 * k + 1)) in *.
    rewrite <- app_assoc in Hidx. simpl in Hidx.
    assert (HkI : idx !! (length pre + length L)%nat = Some k).
    { rewrite Hidx, lookup_app_r by lia.
      replace (length pre + length L - length pre)%nat with (length L) by lia.
      by apply list_lookup_middle. }
    cbn [candidate]. destruct (comp x value) eqn:Hxv; cbn [Z.b2z] in *.
    + destruct (IH f (pre ++ L ++ [k]) post c) as (pre' & post' & ? & ?); [lia|nia| | |done|done|by eauto].
      * rewrite Hidx, <- !app_assoc. done.
      * rewrite !Forall_app. split_and!; [done| |constructor; [by eauto|constructor]].
        apply Forall_forall. intros j Hj.
        apply list_elem_of_lookup_1 in Hj as [q Hq].
        assert (HjI : idx !! (length pre + q)%nat = Some j).
        { rewrite Hidx, lookup_app_r by lia.
          replace (length pre + q - length pre)%nat with q by lia.
          by apply lookup_app_l_Some. }
        destruct (filled_value _ _ HjI) as (xj & Hxj & _).
        exists xj. split; [done|].
        apply (not_greater_below comp swo x); [|done].
        apply (filled_order (length pre + q) (length pre + length L) j k); try done.
        apply lookup_lt_Some in Hq. lia.
    + rewrite Z.add_0_r in *.
      destruct (IH f pre (k :: R ++ post) k) as (pre' & post' & ? & ?); [lia|nia|done|done| |done|by eauto].
      constructor; [by eauto|]. rewrite Forall_app. split; [|done].
      apply Forall_forall. intros j Hj.
      apply list_elem_of_lookup_1 in Hj as [q Hq].
      assert (HjI : idx !! (length pre + length L + 1 + q)%nat = Some j).
      { rewrite Hidx, lookup_app_r by lia.
        rewrite lookup_app_r by lia.
        replace (length pre + length L + 1 + q - length pre - length L)%nat with (S q) by lia.
        simpl. by apply lookup_app_l_Some. }
      destruct (filled_value _ _ HjI) as (xj & Hxj & _).
      exists xj. split; [done|].
      apply (not_greater_above comp swo x); [|done].
      apply (filled_order (length pre + length L) (length pre + length L + 1 + q) k j); try done.
      lia.
Qed.

End Rank.

Section FindRank.
Context {T : Type} (comp : T -> T -> bool).
Context (std_sort : list T -> list T) (uninit : T).
Implicit Types (arr layout : list T) (value : T).

(** [find] returns the tree node whose rank in the in-order enumeration is
    the number of stored elements that are less than the target: the
    position of the first element, in sorted order, that is not less than
    the target.  Among several equivalent elements it is the one that
    comes first in the sorted sequence. *)
Theorem find_rank arr value :
  StrictWeakOrder comp -> SortsBy comp std_sort ->
  size arr <= max_size ->
  (exists x, x ∈ arr /\ comp x value = false) ->
  exists layout p,
    eytzinger_array std_sort uninit arr = Some layout /\
    find comp layout value = Some p /\
    inorder_indices (size arr) !! count_less comp arr value = Some (p + 1) /\
    at_ layout p = std_sort arr !! count_less comp arr value.
Proof.
  intros swo sorts Hmax (x0 & Hx0 & Hx0v).
  destruct (make_eytzinger_spec comp std_sort uninit sorts arr Hmax)
    as (layout & Hbuilt & Hsz & Hpt).
  destruct (make_eytzinger_InOrder comp std_sort uninit sorts arr layout Hmax Hbuilt)
    as (_ & Hin & Hperm).
  pose proof (sort_sorted _ _ sorts arr) as Hsort.
  assert (Hpos : 0 <= size arr) by (unfold size; lia).
  assert (Hlen : length (std_sort arr) = length (inorder_indices (size arr))).
  { apply Nat2Z.inj. rewrite length_inorder_indices by done.
    apply (size_std_sort comp std_sort sorts). }
  destruct (find_hit comp swo layout (std_sort arr) value)
    as (k' & path & c & _ & _ & Hcand & Hw & _ & Hfind & Hrange & _);
    [done|done|done|lia| |].
  { exists x0. split; [|done]. by rewrite Hperm, (sort_perm _ _ sorts). }
  pose proof (levels_spec (size arr)) as Hlev.
  destruct (Walk_rank comp swo layout (std_sort arr) (inorder_indices (size arr)) value
              Hsort Hpt Hlen 1 k' path Hw (levels (size arr)) [] [] 0)
    as (pre & post & Hidx & Hpre & Hpost & Hc); [lia|lia| |done|done|done|].
  { rewrite Hsz, app_nil_r. done. }
  rewrite Hcand in Hc. destruct post as [|c' post]; simpl in Hc; [lia|]. subst c'.
  assert (Hcount : count_less comp arr value = length pre).
  { unfold count_less. rewrite <- (sort_perm _ _ sorts arr).
    apply length_filter_prefix.
    - rewrite Hlen, Hidx, length_app. lia.
    - intros p x Hx Hp.
      destruct (lookup_lt_is_Some_2 pre p Hp) as [j Hj].
      rewrite Forall_lookup in Hpre. destruct (Hpre p j Hj) as (x' & Hx' & Hx'v).
      rewrite (Hpt p j) in Hx' by (rewrite Hidx; by apply lookup_app_l_Some).
      congruence.
    - intros p x Hx Hp.
      destruct (lookup_lt_is_Some_2 (inorder_indices (size arr)) p) as [j Hj].
      { rewrite <- Hlen. by eapply lookup_lt_Some. }
      assert (Hjp : (c :: post) !! (p - length pre)%nat = Some j).
      { rewrite Hidx, lookup_app_r in Hj by done. done. }
      rewrite Forall_lookup in Hpost. destruct (Hpost _ j Hjp) as (x' & Hx' & Hx'v).
      rewrite (Hpt p j Hj) in Hx'. congruence. }
  assert (Hnode : inorder_indices (size arr) !! length pre = Some c).
  { rewrite Hidx. by apply list_lookup_middle. }
  exists layout, (c - 1). rewrite Hcount.
  replace (c - 1 + 1) with c by lia. split_and!; [done|done|done|].
  by apply Hpt.
Qed.

End FindRank.

Lemma find_rank_witness :
  exists layout p,
    eytzinger_array sortZ 0 [2; 7; 2; 5; 2] = Some layout /\
    find Z.ltb layout 2 = Some p /\
    inorder_indices (size [2; 7; 2; 5; 2]) !! count_less Z.ltb [2; 7; 2; 5; 2] 2
      = Some (p + 1) /\
    at_ layout p = sortZ [2; 7; 2; 5; 2] !! count_less Z.ltb [2; 7; 2; 5; 2] 2.
Proof.
  apply (find_rank Z.ltb sortZ 0 [2; 7; 2; 5; 2] 2 Z_ltb_swo sortZ_SortsBy).
  - by vm_compute.
  - exists 2. split; [repeat constructor|reflexivity].
Defined.

(** ** The returned position, for any buffer and any comparator *)

Section Robust.
Context {T : Type} (comp : T -> T -> bool).
Implicit Types (a : list T) (value : T) (path : list (Z * bool)).



End Robust.

